(** * aesccm: Counter with CBC-MAC (CCM) over a 128-bit block cipher

    A shallow embedding of [cbc_mac.go] (the incremental CBC-MAC
    accumulator) and of the CCM construction ([getTag], [Seal], [Open],
    [NewCCM]), followed by the properties proved about them.

    Conventions.  A Go [byte] and a Go [int] are integers of [Z]; the
    conversions [byte(x)] and [uint64(x)] are written out as reductions
    modulo [2^8] and [2^64].  A slice is the list of its elements; where the
    source writes through a sub-slice that aliases a larger buffer, the
    model rebuilds the larger buffer around the rewritten part.  The
    receiver of a method is passed explicitly and the mutated receiver is
    returned next to the result.  The calls of [Seal] whose arguments share
    storage are modelled on the caller's memory ([SealAt]). *)

From Stdlib Require Import ZArith List Bool Lia.
Import ListNotations.
Local Open Scope Z_scope.

(** ** Go values *)

Definition byte := Z.

(** [byte(x)]: keep the low eight bits. *)
Definition to_byte (x : Z) : byte := x mod 256.

(** [uint64(x)]: keep the low 64 bits. *)
Definition uint64 (x : Z) : Z := x mod 2 ^ 64.

(** [len(s)] as a Go [int]. *)
Definition len {A : Type} (s : list A) : Z := Z.of_nat (length s).

(** [make([]byte, n)]. *)
Definition make (n : Z) : list byte := repeat 0 (Z.to_nat n).

(** [copy(dst, src)]: overwrites the first [min(len dst, len src)] bytes of
    [dst]; the result is the new content of [dst]. *)
Definition copy (dst src : list byte) : list byte :=
  firstn (length dst) src ++ skipn (length src) dst.

(** [s[:j]] and [s[i:]]. *)
Definition slice_to (s : list byte) (j : Z) : list byte := firstn (Z.to_nat j) s.
Definition slice_from (s : list byte) (i : Z) : list byte := skipn (Z.to_nat i) s.

(** A write through the sub-slice [s[:j]], [s[i:]] or [s[i:j]] of [s]: the
    rest of [s] is unchanged. *)
Definition through_to (s : list byte) (j : Z) (f : list byte -> list byte) : list byte :=
  f (slice_to s j) ++ slice_from s j.
Definition through_from (s : list byte) (i : Z) (f : list byte -> list byte) : list byte :=
  slice_to s i ++ f (slice_from s i).
Definition through_range (s : list byte) (i j : Z) (f : list byte -> list byte) : list byte :=
  through_from s i (fun t => through_to t (j - i) f).

Fixpoint modify_nth (f : byte -> byte) (n : nat) (s : list byte) : list byte :=
  match s with
  | [] => []
  | x :: r => match n with
              | O => f x :: r
              | S k => x :: modify_nth f k r
              end
  end.

(** [s[i] = f(s[i])].  Every index the embedded code uses is in range on the
    instances [NewCCM] builds (see [write_byte_index_in_range]); outside the
    range, where Go panics, the model leaves [s] as it is. *)
Definition modify (s : list byte) (i : Z) (f : byte -> byte) : list byte :=
  if i <? 0 then s else modify_nth f (Z.to_nat i) s.

(** [s[i] = v]. *)
Definition set (s : list byte) (i : Z) (v : byte) : list byte :=
  modify s i (fun _ => v).

Fixpoint xor_list (a b : list byte) : list byte :=
  match a, b with
  | x :: a', y :: b' => Z.lxor x y :: xor_list a' b'
  | _, _ => []
  end.

(** [bytes.Equal]. *)
Fixpoint bytes_Equal (a b : list byte) : bool :=
  match a, b with
  | [], [] => true
  | x :: a', y :: b' => (x =? y) && bytes_Equal a' b'
  | _, _ => false
  end.

(** ** The block cipher collaborator ([cipher.Block]) *)

(** [cipher] is the forward transform on one block. *)
Record Block : Type := {
  BlockSize : Z;
  cipher : list byte -> list byte
}.

(** [block.Encrypt(dst, src)]: the first block of [src] is encrypted into the
    front of [dst]; the length of [dst] does not change. *)
Definition Encrypt (b : Block) (dst src : list byte) : list byte :=
  copy dst (cipher b (slice_to src (BlockSize b))).

(** ** The CTR collaborator ([cipher.NewCTR] and [XORKeyStream]) *)

(** The counter is incremented as one big-endian number, with wrap-around;
    [incr_le] works on the reversed block. *)
Fixpoint incr_le (s : list byte) : list byte :=
  match s with
  | [] => []
  | b :: r => let b' := to_byte (b + 1) in
              if b' =? 0 then b' :: incr_le r else b' :: r
  end.

Definition ctr_incr (ctr : list byte) : list byte := rev (incr_le (rev ctr)).

Fixpoint ctr_stream (b : Block) (ctr : list byte) (blocks : nat) : list byte :=
  match blocks with
  | O => []
  | S k => Encrypt b (make (BlockSize b)) ctr ++ ctr_stream b (ctr_incr ctr) k
  end.

(** [cipher.NewCTR(b, iv).XORKeyStream(dst, src)]: [len src] bytes of [dst]
    are overwritten.  The keystream is cut to [len src] by [xor_list]. *)
Definition XORKeyStream (b : Block) (iv dst src : list byte) : list byte :=
  copy dst (xor_list src (ctr_stream b iv (length src))).

(** ** cbc_mac.go *)

Module Mac.

Record cbcMac : Type := {
  ci : list byte;
  p : Z;
  block : Block
}.

(** CbcMacBlockSize *)
Definition CbcMacBlockSize : Z := 16.

(** The flush shared by [Write], [Sum] and [PadZero]:
    [mac.block.Encrypt(mac.ci, mac.ci); mac.p = 0]. *)
Definition flush (mac : cbcMac) : cbcMac :=
  {| ci := Encrypt (block mac) (ci mac) (ci mac); p := 0; block := block mac |}.

(** One iteration of the loop of [Write]. *)
Definition write_byte (mac : cbcMac) (c : byte) : cbcMac :=
  let mac1 := if len (ci mac) <=? p mac then flush mac else mac in
  {| ci := modify (ci mac1) (p mac1) (fun x => Z.lxor x c);
     p := p mac1 + 1;
     block := block mac1 |}.

(** [Write] returns [(len(p), nil)]; every caller drops both. *)
Definition Write (mac : cbcMac) (bs : list byte) : cbcMac :=
  fold_left write_byte bs mac.

Definition PadZero (mac : cbcMac) : cbcMac :=
  if negb (p mac =? 0) then flush mac else mac.

Definition Sum (mac : cbcMac) (b : list byte) : cbcMac * list byte :=
  let mac1 := if negb (p mac =? 0) then flush mac else mac in
  (mac1, b ++ ci mac1).

Definition Reset (mac : cbcMac) : cbcMac :=
  {| ci := map (fun _ => 0) (ci mac); p := 0; block := block mac |}.

Definition Size (mac : cbcMac) : Z := len (ci mac).

Definition newCBCMACFromBlock (b : Block) : cbcMac :=
  {| ci := make (BlockSize b); p := 0; block := b |}.

(** The operations a client can apply to an accumulator, and a run of
    them. *)
Inductive op : Type :=
| OpWrite (bs : list byte)
| OpPadZero
| OpSum
| OpReset.

Definition step (mac : cbcMac) (o : op) : cbcMac :=
  match o with
  | OpWrite bs => Write mac bs
  | OpPadZero => PadZero mac
  | OpSum => fst (Sum mac [])
  | OpReset => Reset mac
  end.

Definition run (mac : cbcMac) (ops : list op) : cbcMac := fold_left step ops mac.

End Mac.

Import Mac.

(** ** The CCM construction *)

Inductive error : Type :=
| ErrInvalidBlockSize
| ErrInvalidNonceSize
| ErrInvalidTagSize
| ErrMaxPayloadSizeReached
| ErrAuthenticationFailed.

(** [mac] is a pointer in the source: the accumulator is shared by all the
    calls on one instance, so every method returns the instance with the
    accumulator as the call left it. *)
Record ccm : Type := {
  blockCipher : Block;
  mac : cbcMac;
  nonceSize : Z;
  tagSize : Z
}.

Definition with_mac (c : ccm) (m : cbcMac) : ccm :=
  {| blockCipher := blockCipher c; mac := m;
     nonceSize := nonceSize c; tagSize := tagSize c |}.

(** *** Helpers of the package that the construction calls *)

(** Modelled from the spec: the source of [maxUnsignedVarInt] is missing.
    The spec gives [maxPayload(N) = 2^(8*(15-N)) - 1]; the helper receives
    [n = 15 - N] and returns a [uint64]. *)
Definition maxUnsignedVarInt (n : Z) : Z := uint64 (2 ^ (8 * n) - 1).

(** Modelled from the spec: the source of [putUVarInt] is missing.  The spec
    has the value encoded big-endian over the whole width of the slice it
    is given: byte [i] of [bs] receives [byte(u >> 8*(len(bs)-1-i))]. *)
Fixpoint putUVarInt (bs : list byte) (u : Z) : list byte :=
  match bs with
  | [] => []
  | _ :: r => to_byte (Z.shiftr u (8 * len r)) :: putUVarInt r u
  end.

(** Modelled from the spec: the source of [sliceForAppend] is missing.  The
    spec has the destination extended by [n] bytes: [head] is [in] followed
    by [n] bytes and [tail] is the view [head[len(in):]] of those [n] bytes.
    Each caller overwrites every byte of [tail] that it returns, so the
    bytes [tail] starts with are taken to be zero. *)
Definition sliceForAppend (inp : list byte) (n : Z) : list byte * list byte :=
  (inp ++ make n, make n).

(** Modelled from the spec: the source of [xorBytes] is missing.  The spec
    has the two operands XORed byte by byte into [dst]. *)
Definition xorBytes (dst a b : list byte) : list byte := copy dst (xor_list a b).

(** *** getTag *)

(** Lines 71 to 85 of [getTag]: the length of the associated data is
    written into the front of [cpy].  The result is [cpy] afterwards and
    the number [k] of leading bytes handed to [mac.Write] as [cpy[:k]]. *)
Definition adLenHeader (cpy : list byte) (n : Z) : list byte * Z :=
  if n <? Z.shiftl 1 15 - Z.shiftl 1 7 then
    (through_to cpy 2 (fun s => putUVarInt s (uint64 n)), 2)
  else if n <=? Z.shiftl 1 31 - 1 then
    (through_range (set (set cpy 0 255) 1 254) 2 6 (fun s => putUVarInt s (uint64 n)), 6)
  else
    (through_range (set (set cpy 0 255) 1 255) 2 10 (fun s => putUVarInt s (uint64 n)), 10).

(** The bytes of the length prefix that reach the accumulator. *)
Definition adLenPrefix (cpy : list byte) (n : Z) : list byte :=
  slice_to (fst (adLenHeader cpy n)) (snd (adLenHeader cpy n)).

(** Lines 62 to 64 and 67: [cpy] aliases [ctr], so this is also what the
    caller's counter block holds from then on. *)
Definition formatB0 (c : ccm) (ctr data plaintext : list byte) : list byte :=
  let cpy := ctr in
  let cpy := modify cpy 0
    (fun x => Z.lor x (to_byte (Z.shiftl (Z.quot (tagSize c - 2) 2) 3))) in
  let cpy := through_from cpy (1 + nonceSize c)
    (fun s => putUVarInt s (uint64 (len plaintext))) in
  if 0 <? len data
  then modify cpy 0 (fun x => Z.lor x (Z.shiftl 1 6))
  else cpy.

(** [getTag] returns the 16-byte MAC; the model returns with it the
    instance, whose accumulator the call has used. *)
Definition getTag (c : ccm) (ctr data plaintext : list byte) : list byte * ccm :=
  let m := Reset (mac c) in
  let cpy := formatB0 c ctr data plaintext in
  let m :=
    if 0 <? len data then
      let m := Write m cpy in
      let m := Write m (adLenPrefix cpy (len data)) in
      let m := Write m data in
      PadZero m
    else Write m cpy in
  let m := Write m plaintext in
  let m := PadZero m in
  let '(m, T) := Sum m [] in
  (T, with_mac c m).

Definition NonceSize (c : ccm) : Z := nonceSize c.
Definition Overhead (c : ccm) : Z := tagSize c.

(** Lines 120 to 122 of [Seal], 154 to 156 of [Open]: Ctr0. *)
Definition Ctr0 (c : ccm) (nonce : list byte) : list byte :=
  let counterBlock := make 16 in
  let counterBlock := set counterBlock 0 (to_byte (15 - nonceSize c - 1)) in
  through_from counterBlock 1 (fun s => copy s nonce).

(** Line 127 of [Seal], 161 of [Open]: Ctr1. *)
Definition Ctr1 (c : ccm) (nonce : list byte) : list byte :=
  set (Ctr0 c nonce) 15 1.

(** *** Seal *)

(** [Seal] panics, returns [nil], or returns a slice. *)
Inductive sealed : Type :=
| SealPanic
| SealNil
| SealBytes (out : list byte).

(** [Seal] on the bytes of its arguments: the result is stored in bytes of
    its own, as it is when [dst] is [nil], too small, or has its spare
    capacity apart from the inputs.  [SealAt] below is [Seal] on slices
    that may share storage. *)
Definition Seal (c : ccm) (dst nonce plaintext additionalData : list byte)
  : sealed * ccm :=
  if negb (len nonce =? NonceSize c) then (SealPanic, c)
  else if maxUnsignedVarInt (15 - nonceSize c) <? uint64 (len plaintext)
  then (SealNil, c)
  else
    let '(_, ciphertext) := sliceForAppend dst (len plaintext + Size (mac c)) in
    let counterBlock := Ctr0 c nonce in
    (* s0 := ciphertext[len(plaintext):]; Encrypt(s0, counterBlock) *)
    let ciphertext := through_from ciphertext (len plaintext)
                        (fun s0 => Encrypt (blockCipher c) s0 counterBlock) in
    let counterBlock := Ctr1 c nonce in
    let ciphertext := XORKeyStream (blockCipher c) counterBlock ciphertext plaintext in
    let '(T, c') := getTag c counterBlock additionalData plaintext in
    let ciphertext := through_from ciphertext (len plaintext)
                        (fun s0 => xorBytes s0 s0 T) in
    (* ret is dst followed by the buffer that ciphertext views *)
    let ret := dst ++ ciphertext in
    (SealBytes (slice_to ret (len plaintext + tagSize c)), c').

(** *** Open *)

Definition Open (c : ccm) (dst nonce ciphertext additionalData : list byte)
  : (option (list byte) * option error) * ccm :=
  if negb (len nonce =? nonceSize c) then ((None, Some ErrInvalidNonceSize), c)
  else if len ciphertext <=? tagSize c then ((None, Some ErrInvalidTagSize), c)
  else if maxUnsignedVarInt (15 - nonceSize c) <? uint64 (len ciphertext - tagSize c)
  then ((None, Some ErrMaxPayloadSizeReached), c)
  else
    let '(_, plaintext) := sliceForAppend dst (len ciphertext - tagSize c) in
    let counterBlock := Ctr0 c nonce in
    let s0 := make 16 in
    let s0 := Encrypt (blockCipher c) s0 counterBlock in
    let counterBlock := Ctr1 c nonce in
    let plaintext := XORKeyStream (blockCipher c) counterBlock plaintext
                       (slice_to ciphertext (len plaintext)) in
    let '(T, c') := getTag c counterBlock additionalData plaintext in
    let T := xorBytes T T s0 in
    if negb (bytes_Equal (slice_to T (tagSize c)) (slice_from ciphertext (len plaintext)))
    then ((None, Some ErrAuthenticationFailed), c')
    else
      (* ret is dst followed by the buffer that plaintext views *)
      let ret := dst ++ plaintext in
      ((Some ret, None), c').

(** *** NewCCM *)

Definition NewCCM (b : Block) (nonceSize tagSize : Z) : option ccm * option error :=
  if negb (BlockSize b =? CbcMacBlockSize) then (None, Some ErrInvalidBlockSize)
  else if negb ((7 <=? nonceSize) && (nonceSize <=? 13))
  then (None, Some ErrInvalidNonceSize)
  else if negb ((4 <=? tagSize) && (tagSize <=? 16) && (Z.land tagSize 1 =? 0))
  then (None, Some ErrInvalidTagSize)
  else (Some {| blockCipher := b; mac := newCBCMACFromBlock b;
                nonceSize := nonceSize; tagSize := tagSize |}, None).

(** ** A block cipher to run the code on *)

(** Not a secure cipher: it reverses the block and masks every byte.  It is
    only there so that the definitions above can be evaluated. *)
Definition demoBlock : Block :=
  {| BlockSize := 16; cipher := fun x => map (fun v => Z.lxor v 90) (rev x) |}.

Definition demoCCM (nonceSize tagSize : Z) : ccm :=
  {| blockCipher := demoBlock; mac := newCBCMACFromBlock demoBlock;
     nonceSize := nonceSize; tagSize := tagSize |}.

(** The instances that [NewCCM] builds, at any point of their life: the
    parameters are the validated ones and the accumulator is one block
    long. *)
Definition wf (c : ccm) : Prop :=
  BlockSize (blockCipher c) = 16 /\
  block (mac c) = blockCipher c /\
  len (ci (mac c)) = 16 /\
  7 <= nonceSize c <= 13 /\
  4 <= tagSize c <= 16 /\
  Z.land (tagSize c) 1 = 0.

(** The accumulator is one block long and the cursor lies between 0 and the
    block size, both included. *)
Definition mac_inv (m : cbcMac) : Prop :=
  len (ci m) = 16 /\ 0 <= p m <= 16.

(** The spec's [maxPayload(N)]. *)
Definition maxPayload (N : Z) : Z := 2 ^ (8 * (15 - N)) - 1.

(** Big-endian encoding of [v] over [w] bytes, and its decoding, as the
    spec words them; [putUVarInt] is compared with these. *)
Fixpoint be_encode (w : nat) (v : Z) : list byte :=
  match w with
  | O => []
  | S k => (v / 2 ^ (8 * Z.of_nat k)) mod 256 :: be_encode k v
  end.

Definition be_decode (s : list byte) : Z :=
  fold_left (fun acc b => acc * 256 + b) s 0.

(** The flag byte of B0: [q-1] in bits 0 to 2, [(T-2)/2] in bits 3 to 5 and
    the Adata bit 6. *)
Definition flagsB0 (c : ccm) (data : list byte) : byte :=
  let f := Z.lor (to_byte (15 - nonceSize c - 1))
                 (to_byte (Z.shiftl (Z.quot (tagSize c - 2) 2) 3)) in
  if 0 <? len data then Z.lor f (Z.shiftl 1 6) else f.

(** What the accumulator is fed after B0 for the associated data. *)
Definition encodedAD (B0 data : list byte) : list byte :=
  if 0 <? len data then adLenPrefix B0 (len data) ++ data else [].

(** [Open(nil, nonce, Seal(nil, nonce, plaintext, ad), ad)] on one instance:
    [None] when [Seal] panics, otherwise the two results of [Open]; a [nil]
    from [Seal] reaches [Open] as an empty slice. *)
Definition openSealed (c : ccm) (nonce plaintext ad : list byte)
  : option (option (list byte) * option error) :=
  match Seal c [] nonce plaintext ad with
  | (SealPanic, _) => None
  | (SealNil, c1) => Some (fst (Open c1 [] nonce [] ad))
  | (SealBytes sealedBytes, c1) => Some (fst (Open c1 [] nonce sealedBytes ad))
  end.

Definition demoNonce : list byte := [1; 2; 3; 4; 5; 6; 7; 8; 9; 10; 11; 12; 13].

(** The three parts of what [Seal] computes: the keystream block S0 (the
    encryption of Ctr0), the CTR-mode ciphertext (keystream from Ctr1 on),
    and the 16 bytes of the MAC masked with S0, of which the tag is a
    prefix. *)
Definition S0 (c : ccm) (nonce : list byte) : list byte :=
  Encrypt (blockCipher c) (make 16) (Ctr0 c nonce).

Definition ctrCrypt (c : ccm) (nonce text : list byte) : list byte :=
  xor_list text (ctr_stream (blockCipher c) (Ctr1 c nonce) (length text)).

Definition maskedMac (c : ccm) (nonce data plaintext : list byte) : list byte :=
  xor_list (S0 c nonce) (fst (getTag c (Ctr1 c nonce) data plaintext)).

(** ** The rest of the package, and what its properties are stated with *)

(** [BlockSize] of the accumulator (cbc_mac.go): the constant. *)
Definition macBlockSize (m : cbcMac) : Z := CbcMacBlockSize.

(** One link of a CBC chain: the accumulator XORed with a block, then
    encrypted in place, as [Write] followed by a flush leaves it. *)
Definition cbcStep (b : Block) (acc blk : list byte) : list byte :=
  Encrypt b (xor_list acc blk) (xor_list acc blk).

Definition cbcChain (b : Block) (acc : list byte) (blocks : list (list byte))
  : list byte :=
  fold_left (cbcStep b) blocks acc.

(** A message padded with zero bytes to a whole number of 16-byte blocks,
    and its blocks; [fuel] bounds the number of blocks. *)
Definition pad16 (s : list byte) : list byte :=
  s ++ make ((16 - len s mod 16) mod 16).

Fixpoint chunk (fuel : nat) (s : list byte) : list (list byte) :=
  match fuel with
  | O => []
  | S f => match s with
           | [] => []
           | _ => firstn 16 s :: chunk f (skipn 16 s)
           end
  end.

Definition blocks16 (s : list byte) : list (list byte) := chunk (length s) s.

(** The calls a client makes on an instance, and the instance after a
    sequence of them.  A [Seal] that panics leaves the instance as it was. *)
Inductive call : Type :=
| CallSeal (dst nonce plaintext ad : list byte)
| CallOpen (dst nonce ciphertext ad : list byte).

Definition perform (c : ccm) (k : call) : ccm :=
  match k with
  | CallSeal dst nonce plaintext ad => snd (Seal c dst nonce plaintext ad)
  | CallOpen dst nonce ciphertext ad => snd (Open c dst nonce ciphertext ad)
  end.

Definition after (c : ccm) (ks : list call) : ccm := fold_left perform ks c.

(** Two instances over the same cipher with the same sizes; they may
    differ in what their accumulators hold. *)
Definition alike (c c' : ccm) : Prop :=
  blockCipher c' = blockCipher c /\ nonceSize c' = nonceSize c /\
  tagSize c' = tagSize c.

(** The tag that [Open] compares the end of its input with, for a given
    ciphertext body. *)
Definition expectedTag (c : ccm) (nonce ad body : list byte) : list byte :=
  slice_to (xor_list (fst (getTag c (Ctr1 c nonce) ad (ctrCrypt c nonce body)))
                     (S0 c nonce))
           (tagSize c).

(** A reader of the length prefix that [getTag] writes: the markers
    [0xFF 0xFE] and [0xFF 0xFF] announce a longer length field. *)
Definition adLenDecode (s : list byte) : Z :=
  match s with
  | m0 :: m1 :: r =>
      if (m0 =? 255) && ((m1 =? 254) || (m1 =? 255)) then be_decode r
      else be_decode s
  | _ => be_decode s
  end.

(** ** Seal on slices that may share storage *)

(** [Seal] above takes the bytes of its arguments, so it describes the calls
    in which the storage that receives the result is shared with none of the
    inputs: a [nil] or too small [dst], for which [sliceForAppend] allocates,
    or a spare capacity that lies apart from them.  The interface that
    [NewCCM] returns also allows [dst] to share the storage of [plaintext]
    ([Seal(plaintext[:0], ...)]).  For those calls the caller's memory is
    modelled: one address space, a slice being an address, a length and a
    capacity, and every read and write of [Seal] made on the memory in the
    order of the source. *)
Record slice : Type := { ptr : nat; slen : nat; scap : nat }.

Definition memory : Type := list byte.

Definition nilSlice : slice := {| ptr := 0; slen := 0; scap := 0 |}.

(** [s[:0]]. *)
Definition emptied (s : slice) : slice := {| ptr := ptr s; slen := 0; scap := scap s |}.

Definition loadAt (m : memory) (a n : nat) : list byte := firstn n (skipn a m).

Definition load (m : memory) (s : slice) : list byte := loadAt m (ptr s) (slen s).

Definition storeAt (m : memory) (a : nat) (bs : list byte) : memory :=
  firstn a m ++ bs ++ skipn (a + length bs) m.

(** The slice lies inside the memory. *)
Definition inBounds (m : memory) (s : slice) : Prop :=
  (slen s <= scap s)%nat /\ (ptr s + scap s <= length m)%nat.

(** The overlap tests that the CTR collaborator applies to its two
    arguments: some byte in common, and some byte in common without starting
    at the same address. *)
Definition anyOverlap (x y : slice) : bool :=
  (0 <? slen x)%nat && (0 <? slen y)%nat &&
  (ptr x <? ptr y + slen y)%nat && (ptr y <? ptr x + slen x)%nat.

Definition inexactOverlap (x y : slice) : bool :=
  anyOverlap x y && negb (ptr x =? ptr y)%nat.

(** Modelled from the spec: [sliceForAppend] with its storage.  The spec has
    the destination extended or allocated: when [in] has the capacity for
    [n] more bytes, [head] is [in[:len(in)+n]] on the same storage; otherwise
    [head] is a new zeroed array that starts with a copy of [in].  The result
    is the memory and [head]; [tail] starts [len(in)] bytes into [head]. *)
Definition sliceForAppendAt (m : memory) (inp : slice) (n : nat) : memory * slice :=
  if (slen inp + n <=? scap inp)%nat
  then (m, {| ptr := ptr inp; slen := slen inp + n; scap := scap inp |})
  else (m ++ load m inp ++ repeat 0 n,
        {| ptr := length m; slen := slen inp + n; scap := slen inp + n |}).

(** What [Seal] returns, with the memory it leaves. *)
Inductive sealedAt : Type :=
| AtPanic
| AtNil
| AtSlice (r : slice).

(** [Seal], lines 107 to 136, on the caller's memory.  [counterBlock], the
    keystream and [T] are new arrays of the call and stay values. *)
Definition SealAt (c : ccm) (m : memory) (dst nonce plaintext additionalData : slice)
  : sealedAt * memory * ccm :=
  if negb (Z.of_nat (slen nonce) =? NonceSize c) then (AtPanic, m, c)
  else if maxUnsignedVarInt (15 - nonceSize c) <? uint64 (Z.of_nat (slen plaintext))
  then (AtNil, m, c)
  else
    let n := (slen plaintext + Z.to_nat (Size (mac c)))%nat in
    let '(m, ret) := sliceForAppendAt m dst n in
    (* ciphertext is ret[len(dst):], n bytes from this address *)
    let ciphertext := (ptr ret + slen dst)%nat in
    let counterBlock := Ctr0 c (load m nonce) in
    let counterBlock1 := set counterBlock 15 1 in
    (* s0 := ciphertext[len(plaintext):] *)
    let s0 := (ciphertext + slen plaintext)%nat in
    let s0len := (n - slen plaintext)%nat in
    let m := storeAt m s0 (Encrypt (blockCipher c) (loadAt m s0 s0len) counterBlock) in
    (* XORKeyStream refuses a destination that overlaps the source without
       starting where it starts *)
    if inexactOverlap {| ptr := ciphertext; slen := slen plaintext; scap := n |} plaintext
    then (AtPanic, m, c)
    else
      let m := storeAt m ciphertext
                 (XORKeyStream (blockCipher c) counterBlock1
                    (loadAt m ciphertext n) (load m plaintext)) in
      let '(T, c') := getTag c counterBlock1 (load m additionalData) (load m plaintext) in
      let m := storeAt m s0 (xorBytes (loadAt m s0 s0len) (loadAt m s0 s0len) T) in
      (AtSlice {| ptr := ptr ret;
                  slen := slen plaintext + Z.to_nat (tagSize c);
                  scap := scap ret |}, m, c').

(** The outcome with the bytes of the returned slice. *)
Definition returned (r : sealedAt * memory * ccm) : sealed :=
  match r with
  | (AtPanic, _, _) => SealPanic
  | (AtNil, _, _) => SealNil
  | (AtSlice s, m, _) => SealBytes (load m s)
  end.

(** The storage that receives the result is shared with neither [plaintext]
    nor the associated data: [Seal] allocates it, or the spare capacity of
    [dst] that it uses has no byte in common with them. *)
Definition resultStorage (dst plaintext : slice) : slice :=
  {| ptr := ptr dst + slen dst; slen := slen plaintext + 16; scap := slen plaintext + 16 |}.

Definition apart (dst plaintext ad : slice) : Prop :=
  (scap dst < slen dst + (slen plaintext + 16))%nat \/
  (anyOverlap (resultStorage dst plaintext) plaintext = false /\
   anyOverlap (resultStorage dst plaintext) ad = false).

(** A cipher writes a whole block. *)
Definition wholeBlock (b : Block) : Prop :=
  forall x, length x = 16%nat -> length (cipher b x) = 16%nat.

(** A memory to run the in-place call on: an array of 32 bytes whose first
    16 are the plaintext, then the nonce, then two bytes of associated
    data. *)
Definition demoText : list byte :=
  [1; 2; 3; 4; 5; 6; 7; 8; 9; 10; 11; 12; 13; 14; 15; 16].
Definition demoMemory : memory := demoText ++ make 16 ++ demoNonce ++ [7; 7].
Definition demoTextAt : slice := {| ptr := 0; slen := 16; scap := 32 |}.
Definition demoNonceAt : slice := {| ptr := 32; slen := 13; scap := 13 |}.
Definition demoADAt : slice := {| ptr := 45; slen := 2; scap := 2 |}.

(** * Properties *)

(** Closed goals over concrete inputs are settled by evaluation. *)
Ltac by_evaluation :=
  vm_compute; first [reflexivity | discriminate | split; discriminate].

(** ** Slices *)

Lemma len_nonneg {A : Type} (s : list A) : 0 <= len s.
Proof. unfold len. lia. Qed.

Lemma len_app {A : Type} (a b : list A) : len (a ++ b) = len a + len b.
Proof. unfold len. rewrite length_app. lia. Qed.

Lemma len_nil_iff {A : Type} (s : list A) : len s = 0 <-> s = [].
Proof.
  unfold len. destruct s; simpl; split; intro H; try reflexivity; try discriminate; lia.
Qed.

Lemma length_make (n : Z) : length (make n) = Z.to_nat n.
Proof. unfold make. apply repeat_length. Qed.

Lemma len_make (n : Z) : 0 <= n -> len (make n) = n.
Proof. intro H. unfold len. rewrite length_make. lia. Qed.

Lemma make_add (n k : Z) : 0 <= n -> 0 <= k -> make (n + k) = make n ++ make k.
Proof.
  intros Hn Hk. unfold make. rewrite Z2Nat.inj_add by assumption. apply repeat_app.
Qed.

Lemma length_copy (dst src : list byte) : length (copy dst src) = length dst.
Proof.
  unfold copy. rewrite length_app, length_firstn, length_skipn. lia.
Qed.

Lemma copy_same_length (dst src : list byte) :
  length src = length dst -> copy dst src = src.
Proof.
  intro H. unfold copy. rewrite <- H, firstn_all, H, skipn_all. apply app_nil_r.
Qed.

Lemma copy_prefix (a b src : list byte) :
  length src = length a -> copy (a ++ b) src = src ++ b.
Proof.
  intro H. unfold copy. rewrite firstn_all2 by (rewrite length_app; lia).
  rewrite H, skipn_app, skipn_all, Nat.sub_diag. reflexivity.
Qed.

Lemma slice_to_app (a b : list byte) : slice_to (a ++ b) (len a) = a.
Proof.
  unfold slice_to, len. rewrite Nat2Z.id, firstn_app, firstn_all, Nat.sub_diag.
  simpl. apply app_nil_r.
Qed.

Lemma slice_from_app (a b : list byte) : slice_from (a ++ b) (len a) = b.
Proof.
  unfold slice_from, len. rewrite Nat2Z.id, skipn_app, skipn_all, Nat.sub_diag.
  reflexivity.
Qed.

Lemma through_from_app (a b : list byte) (f : list byte -> list byte) :
  through_from (a ++ b) (len a) f = a ++ f b.
Proof. unfold through_from. rewrite slice_to_app, slice_from_app. reflexivity. Qed.

Lemma length_modify_nth (f : byte -> byte) (n : nat) (s : list byte) :
  length (modify_nth f n s) = length s.
Proof.
  revert n. induction s as [|x r IH]; intros [|k]; simpl; try reflexivity.
  now rewrite IH.
Qed.

Lemma length_modify (s : list byte) (i : Z) (f : byte -> byte) :
  length (modify s i f) = length s.
Proof. unfold modify. destruct (i <? 0); [reflexivity | apply length_modify_nth]. Qed.

Lemma modify_nth_app (f : byte -> byte) (a b : list byte) (n : nat) :
  modify_nth f (length a + n) (a ++ b) = a ++ modify_nth f n b.
Proof. induction a as [|x r IH]; simpl; [reflexivity | now rewrite IH]. Qed.

Lemma modify_app (a b : list byte) (i : Z) (f : byte -> byte) :
  0 <= i -> modify (a ++ b) (len a + i) f = a ++ modify b i f.
Proof.
  intro Hi. unfold modify, len.
  destruct (Z.ltb_spec (Z.of_nat (length a) + i) 0); [lia|].
  destruct (Z.ltb_spec i 0); [lia|].
  replace (Z.to_nat (Z.of_nat (length a) + i)) with (length a + Z.to_nat i)%nat by lia.
  apply modify_nth_app.
Qed.

Lemma length_xor_list (a b : list byte) :
  length (xor_list a b) = Nat.min (length a) (length b).
Proof.
  revert b. induction a as [|x a IH]; intros [|y b]; simpl; try reflexivity.
  now rewrite IH.
Qed.

Lemma xor_list_comm (a b : list byte) : xor_list a b = xor_list b a.
Proof.
  revert b. induction a as [|x a IH]; intros [|y b]; simpl; try reflexivity.
  now rewrite Z.lxor_comm, IH.
Qed.

(** XORing twice with a keystream that is long enough gives the input
    back. *)
Lemma xor_list_involutive (a k : list byte) :
  (length a <= length k)%nat -> xor_list (xor_list a k) k = a.
Proof.
  revert k. induction a as [|x a IH]; intros [|y k] H; simpl in *; try reflexivity; try lia.
  rewrite Z.lxor_assoc, Z.lxor_nilpotent, Z.lxor_0_r, IH by lia. reflexivity.
Qed.

Lemma bytes_Equal_refl (a : list byte) : bytes_Equal a a = true.
Proof. induction a as [|x a IH]; simpl; [reflexivity | now rewrite Z.eqb_refl, IH]. Qed.

Lemma bytes_Equal_eq (a b : list byte) : bytes_Equal a b = true <-> a = b.
Proof.
  split; [|intros ->; apply bytes_Equal_refl].
  revert b. induction a as [|x a IH]; intros [|y b]; simpl; try reflexivity; try discriminate.
  intro H. apply andb_true_iff in H as [Hx Hr].
  apply Z.eqb_eq in Hx. subst. f_equal. now apply IH.
Qed.

(** ** The block cipher and the keystream *)

Lemma length_Encrypt (b : Block) (dst src : list byte) :
  length (Encrypt b dst src) = length dst.
Proof. apply length_copy. Qed.

Lemma length_ctr_stream (b : Block) (ctr : list byte) (n : nat) :
  0 <= BlockSize b ->
  length (ctr_stream b ctr n) = (n * Z.to_nat (BlockSize b))%nat.
Proof.
  intro Hb. revert ctr. induction n as [|n IH]; intro ctr; simpl; [reflexivity|].
  rewrite length_app, length_Encrypt, length_make, IH. reflexivity.
Qed.

(** The keystream XOR over a destination of the same length as the
    source. *)
Lemma XORKeyStream_same_length (b : Block) (iv dst src : list byte) :
  BlockSize b = 16 -> length dst = length src ->
  XORKeyStream b iv dst src = xor_list src (ctr_stream b iv (length src)).
Proof.
  intros Hb Hlen. unfold XORKeyStream. apply copy_same_length.
  rewrite length_xor_list, length_ctr_stream, Hb by lia.
  change (Z.to_nat 16) with 16%nat. lia.
Qed.

(** ** The CBC-MAC accumulator *)

Lemma len_ci_flush (m : cbcMac) : len (ci (flush m)) = len (ci m).
Proof. unfold len. simpl. now rewrite length_Encrypt. Qed.

Lemma len_ci_write_byte (m : cbcMac) (c : byte) :
  len (ci (write_byte m c)) = len (ci m).
Proof.
  unfold write_byte, len. simpl. rewrite length_modify.
  destruct (Z.of_nat (length (ci m)) <=? p m); [|reflexivity].
  simpl. now rewrite length_Encrypt.
Qed.

Lemma block_write_byte (m : cbcMac) (c : byte) : block (write_byte m c) = block m.
Proof. unfold write_byte. simpl. now destruct (len (ci m) <=? p m). Qed.

(** The index that [write_byte] writes at is inside the accumulator. *)
Lemma write_byte_index_in_range (m : cbcMac) (c : byte) :
  mac_inv m ->
  let m1 := if len (ci m) <=? p m then flush m else m in
  0 <= p m1 < len (ci m1).
Proof.
  intros [Hl Hp]. simpl. destruct (Z.leb_spec (len (ci m)) (p m)).
  - rewrite len_ci_flush. simpl. lia.
  - lia.
Qed.

Lemma write_byte_cursor (m : cbcMac) (c : byte) :
  mac_inv m -> mac_inv (write_byte m c) /\ 1 <= p (write_byte m c).
Proof.
  intros [Hl Hp]. unfold mac_inv. rewrite len_ci_write_byte.
  unfold write_byte. simpl. destruct (Z.leb_spec (len (ci m)) (p m)); simpl; lia.
Qed.

(** A byte that arrives on a full accumulator is what triggers the
    encryption: the flush of [Write] is lazy. *)
Lemma write_byte_on_full (m : cbcMac) (c : byte) :
  0 < len (ci m) <= p m ->
  write_byte m c = write_byte (flush m) c.
Proof.
  intro H. unfold write_byte.
  destruct (Z.leb_spec (len (ci m)) (p m)); [|lia].
  destruct (Z.leb_spec (len (ci (flush m))) (p (flush m))) as [H1|H1]; [|reflexivity].
  rewrite len_ci_flush in H1. simpl in H1. lia.
Qed.

Lemma Write_inv (bs : list byte) (m : cbcMac) :
  mac_inv m -> mac_inv (Write m bs).
Proof.
  revert m. induction bs as [|c bs IH]; intros m Hm; simpl; [assumption|].
  apply IH. now apply write_byte_cursor.
Qed.

Lemma Write_cursor_positive (bs : list byte) (m : cbcMac) :
  mac_inv m -> bs <> [] -> 1 <= p (Write m bs).
Proof.
  intros Hm Hne.
  destruct (exists_last Hne) as (front & c & ->).
  unfold Write. rewrite fold_left_app.
  change (fold_left write_byte [c] (fold_left write_byte front m))
    with (write_byte (Write m front) c).
  apply write_byte_cursor. now apply Write_inv.
Qed.

Lemma block_Write (bs : list byte) (m : cbcMac) : block (Write m bs) = block m.
Proof.
  revert m. induction bs as [|c bs IH]; intro m; [reflexivity|].
  change (Write m (c :: bs)) with (Write (write_byte m c) bs).
  now rewrite IH, block_write_byte.
Qed.

Lemma Write_app (m : cbcMac) (a b : list byte) :
  Write m (a ++ b) = Write (Write m a) b.
Proof. apply fold_left_app. Qed.

Lemma flush_inv (m : cbcMac) : mac_inv m -> mac_inv (flush m) /\ p (flush m) = 0.
Proof.
  intros [Hl Hp]. unfold mac_inv. rewrite len_ci_flush. simpl. lia.
Qed.

Lemma PadZero_inv (m : cbcMac) : mac_inv m -> mac_inv (PadZero m) /\ p (PadZero m) = 0.
Proof.
  intro Hm. unfold PadZero. destruct (Z.eqb_spec (p m) 0) as [E|E]; simpl.
  - now split.
  - now apply flush_inv.
Qed.

Lemma block_PadZero (m : cbcMac) : block (PadZero m) = block m.
Proof. unfold PadZero. now destruct (negb (p m =? 0)). Qed.

Lemma Sum_inv (m : cbcMac) (b : list byte) :
  mac_inv m -> mac_inv (fst (Sum m b)) /\ p (fst (Sum m b)) = 0.
Proof.
  intro Hm. unfold Sum. simpl. destruct (Z.eqb_spec (p m) 0) as [E|E]; simpl.
  - now split.
  - now apply flush_inv.
Qed.

Lemma Sum_PadZero (m : cbcMac) (b : list byte) : fst (Sum m b) = PadZero m.
Proof. reflexivity. Qed.

Lemma len_Sum (m : cbcMac) : mac_inv m -> len (snd (Sum m [])) = 16.
Proof.
  intro Hm. unfold Sum. simpl.
  destruct (negb (p m =? 0)); [rewrite len_ci_flush|]; apply Hm.
Qed.

Lemma Reset_inv (m : cbcMac) : len (ci m) = 16 -> mac_inv (Reset m) /\ p (Reset m) = 0.
Proof.
  intro Hl. unfold mac_inv, Reset, len. simpl. rewrite length_map.
  unfold len in Hl. lia.
Qed.

(** [Reset] forgets everything but the block cipher and the length of the
    accumulator. *)
Lemma Reset_determined (m1 m2 : cbcMac) :
  block m1 = block m2 -> len (ci m1) = len (ci m2) -> Reset m1 = Reset m2.
Proof.
  intros Hb Hl. unfold Reset. rewrite Hb. f_equal.
  assert (H : forall s : list byte, map (fun _ => 0) s = repeat 0 (length s)).
  { induction s as [|x s IH]; simpl; [reflexivity | now rewrite IH]. }
  rewrite !H. f_equal. unfold len in Hl. lia.
Qed.

Lemma newCBCMACFromBlock_inv (b : Block) :
  BlockSize b = 16 -> mac_inv (newCBCMACFromBlock b).
Proof.
  intro Hb. unfold mac_inv, newCBCMACFromBlock. simpl. rewrite Hb. split.
  - reflexivity.
  - lia.
Qed.

Lemma step_inv (m : cbcMac) (o : op) : mac_inv m -> mac_inv (step m o).
Proof.
  intro Hm. destruct o; simpl.
  - now apply Write_inv.
  - now apply PadZero_inv.
  - now apply (Sum_inv m []).
  - apply Reset_inv, Hm.
Qed.

Lemma run_inv (ops : list op) (m : cbcMac) : mac_inv m -> mac_inv (run m ops).
Proof.
  revert m. induction ops as [|o ops IH]; intros m Hm; simpl; [assumption|].
  apply IH. now apply step_inv.
Qed.

(** A [PadZero] between a write that filled the accumulator and the next
    write changes nothing once both are padded: the pending encryption
    happens either way. *)
Lemma PadZero_Write_on_full (m : cbcMac) (bs : list byte) :
  0 < len (ci m) -> p m = len (ci m) ->
  PadZero (Write (PadZero m) bs) = PadZero (Write m bs).
Proof.
  intros Hpos Hfull.
  assert (E : negb (p m =? 0) = true).
  { apply negb_true_iff, Z.eqb_neq. lia. }
  destruct bs as [|c bs].
  - simpl. unfold PadZero at 2 3. rewrite E. reflexivity.
  - simpl. f_equal. f_equal.
    rewrite (write_byte_on_full m c) by lia.
    unfold PadZero. now rewrite E.
Qed.

Lemma Write_cursor_advance (bs : list byte) (m : cbcMac) :
  0 <= p m -> p m + len bs <= len (ci m) -> p (Write m bs) = p m + len bs.
Proof.
  revert m. induction bs as [|c bs IH]; intros m H0 H.
  - simpl. unfold len. simpl. lia.
  - change (Write m (c :: bs)) with (Write (write_byte m c) bs).
    assert (Hc : len (c :: bs) = 1 + len bs) by (unfold len; simpl length; lia).
    pose proof (len_nonneg bs) as Hb. rewrite Hc in *.
    assert (Hp : p (write_byte m c) = p m + 1).
    { unfold write_byte. simpl. destruct (Z.leb_spec (len (ci m)) (p m)); [lia|reflexivity]. }
    rewrite IH; rewrite ?len_ci_write_byte; lia.
Qed.

(** ** Length encodings *)

Lemma length_putUVarInt (bs : list byte) (u : Z) : length (putUVarInt bs u) = length bs.
Proof. induction bs as [|x bs IH]; simpl; [reflexivity | now rewrite IH]. Qed.

(** [putUVarInt] is the big-endian encoding over the width of its slice,
    whatever the slice held. *)
Lemma putUVarInt_be_encode (bs : list byte) (u : Z) :
  putUVarInt bs u = be_encode (length bs) u.
Proof.
  induction bs as [|x bs IH]; cbn [putUVarInt be_encode length]; [reflexivity|].
  rewrite IH. f_equal. unfold to_byte, len.
  rewrite Z.shiftr_div_pow2 by lia. reflexivity.
Qed.

Lemma length_be_encode (w : nat) (v : Z) : length (be_encode w v) = w.
Proof. induction w as [|w IH]; simpl; [reflexivity | now rewrite IH]. Qed.

Lemma be_decode_encode_acc (w : nat) (v acc : Z) :
  fold_left (fun a b => a * 256 + b) (be_encode w v) acc
  = acc * 2 ^ (8 * Z.of_nat w) + v mod 2 ^ (8 * Z.of_nat w).
Proof.
  revert acc. induction w as [|w IH]; intro acc.
  - simpl. rewrite Z.mod_1_r. lia.
  - cbn [be_encode fold_left]. rewrite IH.
    replace (8 * Z.of_nat (S w)) with (8 * Z.of_nat w + 8) by lia.
    rewrite Z.pow_add_r by lia.
    change (2 ^ 8) with 256.
    assert (Hpos : 0 < 2 ^ (8 * Z.of_nat w)) by (apply Z.pow_pos_nonneg; lia).
    rewrite (Z.rem_mul_r v (2 ^ (8 * Z.of_nat w)) 256) by lia.
    lia.
Qed.

(** Decoding an encoding gives the value back when it fits the width. *)
Lemma be_decode_encode (w : nat) (v : Z) :
  0 <= v < 2 ^ (8 * Z.of_nat w) -> be_decode (be_encode w v) = v.
Proof.
  intro H. unfold be_decode. rewrite be_decode_encode_acc, Z.mod_small by assumption.
  lia.
Qed.

Lemma uint64_small (x : Z) : 0 <= x < 2 ^ 64 -> uint64 x = x.
Proof. intro H. unfold uint64. now apply Z.mod_small. Qed.

(** On the validated nonce sizes the helper returns the spec's
    [maxPayload]. *)
Lemma maxUnsignedVarInt_maxPayload (N : Z) :
  7 <= N <= 13 -> maxUnsignedVarInt (15 - N) = maxPayload N.
Proof.
  intro H. unfold maxUnsignedVarInt, maxPayload.
  assert (C : N = 7 \/ N = 8 \/ N = 9 \/ N = 10 \/ N = 11 \/ N = 12 \/ N = 13) by lia.
  destruct C as [->|[->|[->|[->|[->|[->| ->]]]]]]; reflexivity.
Qed.

Lemma maxPayload_bounds (N : Z) :
  7 <= N <= 13 -> 65535 <= maxPayload N < 2 ^ 64.
Proof.
  intro H. unfold maxPayload.
  assert (C : N = 7 \/ N = 8 \/ N = 9 \/ N = 10 \/ N = 11 \/ N = 12 \/ N = 13) by lia.
  destruct C as [->|[->|[->|[->|[->|[->| ->]]]]]]; vm_compute; split; congruence.
Qed.

(** ** Counter blocks and B0 *)

Lemma modify_head (x : byte) (r : list byte) (f : byte -> byte) :
  modify (x :: r) 0 f = f x :: r.
Proof. reflexivity. Qed.

Lemma length_through_from (s : list byte) (i : Z) (f : list byte -> list byte) :
  (forall t, length (f t) = length t) -> length (through_from s i f) = length s.
Proof.
  intro Hf. unfold through_from, slice_to, slice_from.
  rewrite length_app, Hf, <- length_app, firstn_skipn. reflexivity.
Qed.

Lemma Ctr0_layout (c : ccm) (nonce : list byte) :
  0 <= nonceSize c <= 15 -> len nonce = nonceSize c ->
  Ctr0 c nonce = to_byte (15 - nonceSize c - 1) :: nonce ++ make (15 - nonceSize c).
Proof.
  intros HN Hlen. unfold Ctr0.
  change (make 16) with (0 :: make 15).
  unfold set. rewrite modify_head.
  change (to_byte (15 - nonceSize c - 1) :: make 15)
    with ([to_byte (15 - nonceSize c - 1)] ++ make 15).
  change 1 with (len [to_byte (15 - nonceSize c - 1)]) at 2.
  rewrite through_from_app. simpl. f_equal.
  replace 15 with (nonceSize c + (15 - nonceSize c)) at 1 by lia.
  rewrite make_add by lia. apply copy_prefix.
  rewrite length_make. unfold len in Hlen. lia.
Qed.

Lemma set_in_tail (b : byte) (nonce tail : list byte) (k : Z) (v : byte) :
  0 <= k ->
  set (b :: nonce ++ tail) (1 + (len nonce + k)) v = b :: nonce ++ set tail k v.
Proof.
  intro Hk. unfold set.
  change (b :: nonce ++ tail) with ([b] ++ (nonce ++ tail)).
  change 1 with (len [b]).
  pose proof (len_nonneg nonce) as Hn.
  rewrite modify_app by lia.
  rewrite modify_app by lia. reflexivity.
Qed.

Lemma Ctr1_layout (c : ccm) (nonce : list byte) :
  0 <= nonceSize c <= 14 -> len nonce = nonceSize c ->
  exists tail, length tail = Z.to_nat (15 - nonceSize c) /\
    Ctr1 c nonce = to_byte (15 - nonceSize c - 1) :: nonce ++ tail.
Proof.
  intros HN Hlen. unfold Ctr1. rewrite Ctr0_layout by lia.
  exists (set (make (15 - nonceSize c)) (14 - nonceSize c) 1). split.
  - unfold set. now rewrite length_modify, length_make.
  - rewrite <- set_in_tail by lia. f_equal. lia.
Qed.

(** B0 as [formatB0] leaves it, for any counter block laid out as flag
    byte, nonce and counter field: the counter field is overwritten whole by
    the length of the plaintext. *)
Lemma formatB0_layout (c : ccm) (nonce tail data plaintext : list byte) :
  len nonce = nonceSize c ->
  formatB0 c (to_byte (15 - nonceSize c - 1) :: nonce ++ tail) data plaintext
  = flagsB0 c data :: nonce ++ be_encode (length tail) (uint64 (len plaintext)).
Proof.
  intro Hlen.
  assert (E : forall b : byte, 1 + nonceSize c = len (b :: nonce))
    by (intro; unfold len in *; simpl length; lia).
  unfold formatB0, flagsB0. rewrite modify_head.
  set (b := Z.lor _ _).
  change (b :: nonce ++ tail) with ((b :: nonce) ++ tail).
  rewrite (E b).
  rewrite through_from_app, putUVarInt_be_encode.
  destruct (0 <? len data); reflexivity.
Qed.

Lemma len_formatB0 (c : ccm) (ctr data plaintext : list byte) :
  len (formatB0 c ctr data plaintext) = len ctr.
Proof.
  apply (f_equal Z.of_nat (x := length (formatB0 c ctr data plaintext))).
  unfold formatB0.
  destruct (0 <? len data); rewrite ?length_modify;
    rewrite length_through_from by (intro; apply length_putUVarInt);
    apply length_modify.
Qed.

(** ** getTag *)

Lemma getTag_eq (c : ccm) (ctr data plaintext : list byte) :
  let B0 := formatB0 c ctr data plaintext in
  let m := if 0 <? len data
           then PadZero (Write (Write (Write (Reset (mac c)) B0)
                                  (adLenPrefix B0 (len data))) data)
           else Write (Reset (mac c)) B0 in
  let m := PadZero (Write m plaintext) in
  getTag c ctr data plaintext = (snd (Sum m []), with_mac c (fst (Sum m []))).
Proof. unfold getTag. simpl. destruct (0 <? len data); reflexivity. Qed.

Lemma getTag_mac_inv (c : ccm) (ctr data plaintext : list byte) :
  len (ci (mac c)) = 16 ->
  let r := getTag c ctr data plaintext in
  len (fst r) = 16 /\ mac_inv (mac (snd r)) /\ block (mac (snd r)) = block (mac c).
Proof.
  intro Hl. cbv zeta. rewrite getTag_eq. cbv zeta. cbn [fst snd mac with_mac].
  set (m := if 0 <? len data then _ else _).
  assert (Hm : mac_inv m /\ block m = block (mac c)).
  { subst m. destruct (0 <? len data).
    - split.
      + apply PadZero_inv. repeat apply Write_inv. now apply Reset_inv.
      + now rewrite block_PadZero, !block_Write.
    - split.
      + apply Write_inv. now apply Reset_inv.
      + now rewrite block_Write. }
  destruct Hm as [Hm Hb].
  assert (Hm' : mac_inv (PadZero (Write m plaintext))).
  { apply PadZero_inv. now apply Write_inv. }
  split; [|split].
  - now apply len_Sum.
  - now apply (Sum_inv _ []).
  - rewrite Sum_PadZero, !block_PadZero, block_Write. assumption.
Qed.

(** The tag does not depend on what earlier calls left in the accumulator. *)
Lemma getTag_tag_stable (c c' : ccm) (ctr data plaintext : list byte) :
  nonceSize c' = nonceSize c -> tagSize c' = tagSize c ->
  block (mac c') = block (mac c) -> len (ci (mac c')) = len (ci (mac c)) ->
  fst (getTag c' ctr data plaintext) = fst (getTag c ctr data plaintext).
Proof.
  intros HN HT Hb Hl. rewrite !getTag_eq. cbv zeta. cbn [fst].
  unfold formatB0. rewrite HN, HT, (Reset_determined (mac c') (mac c) Hb Hl).
  reflexivity.
Qed.

Lemma getTag_wf (c : ccm) (ctr data plaintext : list byte) :
  wf c -> wf (snd (getTag c ctr data plaintext)).
Proof.
  intros (Hbs & Hblk & Hl & HN & HT & He).
  destruct (getTag_mac_inv c ctr data plaintext Hl) as (_ & [Hl' _] & Hb').
  rewrite getTag_eq in *. cbv zeta in *. cbn [fst snd mac with_mac] in *.
  unfold wf. cbn [blockCipher mac nonceSize tagSize with_mac].
  repeat split; try assumption; try lia.
  now rewrite Hb'.
Qed.

(** ** NewCCM, Seal and Open *)

Lemma NewCCM_wf (b : Block) (N T : Z) (c : ccm) :
  NewCCM b N T = (Some c, None) -> wf c.
Proof.
  unfold NewCCM, CbcMacBlockSize.
  destruct (Z.eqb_spec (BlockSize b) 16) as [Hb|]; [|discriminate].
  destruct (Z.leb_spec 7 N); [|discriminate].
  destruct (Z.leb_spec N 13); [|discriminate].
  destruct (Z.leb_spec 4 T); [|discriminate].
  destruct (Z.leb_spec T 16); [|discriminate].
  destruct (Z.eqb_spec (Z.land T 1) 0); [|discriminate].
  simpl. intro Hc. injection Hc as <-. unfold wf. simpl.
  repeat split; try assumption; try lia.
  unfold len. rewrite length_make, Hb. reflexivity.
Qed.

Lemma demoCCM_wf : wf (demoCCM 13 4).
Proof. apply (NewCCM_wf demoBlock 13 4). reflexivity. Qed.

Lemma through_from_at (a b : list byte) (i : Z) (f : list byte -> list byte) :
  len a = i -> through_from (a ++ b) i f = a ++ f b.
Proof. intros <-. apply through_from_app. Qed.

Lemma slice_to_app_more (a b : list byte) (k : Z) :
  0 <= k -> slice_to (a ++ b) (len a + k) = a ++ slice_to b k.
Proof.
  intro Hk. unfold slice_to, len.
  replace (Z.to_nat (Z.of_nat (length a) + k)) with (length a + Z.to_nat k)%nat by lia.
  apply firstn_app_2.
Qed.

Lemma length_S0 (c : ccm) (nonce : list byte) : length (S0 c nonce) = 16%nat.
Proof. unfold S0. now rewrite length_Encrypt. Qed.

Lemma length_ctrCrypt (c : ccm) (nonce text : list byte) :
  BlockSize (blockCipher c) = 16 -> length (ctrCrypt c nonce text) = length text.
Proof.
  intro Hb. unfold ctrCrypt.
  rewrite length_xor_list, length_ctr_stream, Hb by lia.
  change (Z.to_nat 16) with 16%nat. lia.
Qed.

Lemma ctrCrypt_involutive (c : ccm) (nonce text : list byte) :
  BlockSize (blockCipher c) = 16 ->
  ctrCrypt c nonce (ctrCrypt c nonce text) = text.
Proof.
  intro Hb. unfold ctrCrypt at 1. rewrite length_ctrCrypt by assumption.
  unfold ctrCrypt. apply xor_list_involutive.
  rewrite length_ctr_stream, Hb by lia. change (Z.to_nat 16) with 16%nat. lia.
Qed.

Lemma length_maskedMac (c : ccm) (nonce data plaintext : list byte) :
  len (ci (mac c)) = 16 -> length (maskedMac c nonce data plaintext) = 16%nat.
Proof.
  intro Hl. unfold maskedMac. rewrite length_xor_list, length_S0.
  destruct (getTag_mac_inv c (Ctr1 c nonce) data plaintext Hl) as (Ht & _).
  unfold len in Ht. lia.
Qed.

(** What [Seal] returns once its two guards are passed. *)
Lemma Seal_spec (c : ccm) (dst nonce plaintext ad : list byte) :
  wf c -> len nonce = nonceSize c ->
  uint64 (len plaintext) <= maxPayload (nonceSize c) ->
  Seal c dst nonce plaintext ad
  = (SealBytes (slice_to (dst ++ ctrCrypt c nonce plaintext
                              ++ maskedMac c nonce ad plaintext)
                         (len plaintext + tagSize c)),
     snd (getTag c (Ctr1 c nonce) ad plaintext)).
Proof.
  intros Hwf Hn Hmax. pose proof Hwf as (Hbs & Hblk & Hl & HN & HT & He).
  unfold Seal, NonceSize, Size.
  rewrite Hn, Z.eqb_refl. simpl negb. cbv iota.
  rewrite maxUnsignedVarInt_maxPayload by assumption.
  destruct (Z.ltb_spec (maxPayload (nonceSize c)) (uint64 (len plaintext))); [lia|].
  unfold sliceForAppend. rewrite Hl.
  pose proof (len_nonneg plaintext) as Hp.
  rewrite make_add by lia.
  rewrite through_from_at by (apply len_make; lia).
  fold (S0 c nonce).
  unfold XORKeyStream. fold (ctrCrypt c nonce plaintext).
  rewrite copy_prefix
    by (rewrite length_ctrCrypt, length_make by assumption; unfold len; lia).
  rewrite (surjective_pairing (getTag c (Ctr1 c nonce) ad plaintext)).
  rewrite through_from_at
    by (unfold len; now rewrite length_ctrCrypt by assumption).
  unfold xorBytes. fold (maskedMac c nonce ad plaintext).
  rewrite copy_same_length by (now rewrite length_maskedMac, length_S0).
  reflexivity.
Qed.

Lemma length_slice_to (s : list byte) (k : Z) :
  0 <= k <= len s -> length (slice_to s k) = Z.to_nat k.
Proof.
  intro H. unfold slice_to. rewrite length_firstn. unfold len in H. lia.
Qed.

(** What [Open] returns once its three guards are passed. *)
Lemma Open_spec (c : ccm) (dst nonce ciphertext ad : list byte) :
  wf c -> len nonce = nonceSize c -> tagSize c < len ciphertext ->
  uint64 (len ciphertext - tagSize c) <= maxPayload (nonceSize c) ->
  let k := len ciphertext - tagSize c in
  let plaintext := ctrCrypt c nonce (slice_to ciphertext k) in
  let r := getTag c (Ctr1 c nonce) ad plaintext in
  Open c dst nonce ciphertext ad
  = if negb (bytes_Equal (slice_to (xor_list (fst r) (S0 c nonce)) (tagSize c))
                         (slice_from ciphertext k))
    then ((None, Some ErrAuthenticationFailed), snd r)
    else ((Some (dst ++ plaintext), None), snd r).
Proof.
  intros Hwf Hn Hlong Hmax. pose proof Hwf as (Hbs & Hblk & Hl & HN & HT & He).
  cbv zeta. unfold Open.
  rewrite Hn, Z.eqb_refl. simpl negb. cbv iota.
  destruct (Z.leb_spec (len ciphertext) (tagSize c)); [lia|].
  rewrite maxUnsignedVarInt_maxPayload by assumption.
  destruct (Z.ltb_spec (maxPayload (nonceSize c))
              (uint64 (len ciphertext - tagSize c))); [lia|].
  unfold sliceForAppend.
  set (k := len ciphertext - tagSize c) in *.
  rewrite (len_make k) by lia.
  fold (S0 c nonce).
  assert (Hk : length (slice_to ciphertext k) = Z.to_nat k)
    by (apply length_slice_to; lia).
  rewrite XORKeyStream_same_length
    by (try assumption; now rewrite length_make, Hk).
  fold (ctrCrypt c nonce (slice_to ciphertext k)).
  set (plaintext := ctrCrypt c nonce (slice_to ciphertext k)).
  assert (Hp : len plaintext = k).
  { subst plaintext. unfold len. rewrite length_ctrCrypt, Hk by assumption. lia. }
  rewrite Hp.
  rewrite (surjective_pairing (getTag c (Ctr1 c nonce) ad plaintext)).
  unfold xorBytes. rewrite copy_same_length; [reflexivity|].
  rewrite length_xor_list, length_S0.
  destruct (getTag_mac_inv c (Ctr1 c nonce) ad plaintext Hl) as (Ht & _).
  unfold len in Ht. lia.
Qed.

Lemma Seal_wf (c : ccm) (dst nonce plaintext ad : list byte) :
  wf c -> wf (snd (Seal c dst nonce plaintext ad)).
Proof.
  intro Hwf. unfold Seal.
  destruct (negb (len nonce =? NonceSize c)); [assumption|].
  destruct (maxUnsignedVarInt (15 - nonceSize c) <? uint64 (len plaintext));
    [assumption|].
  cbn [sliceForAppend].
  destruct (getTag c (Ctr1 c nonce) ad plaintext) as [T c'] eqn:E.
  cbn [snd]. change c' with (snd (T, c')). rewrite <- E. now apply getTag_wf.
Qed.

Lemma Open_wf (c : ccm) (dst nonce ciphertext ad : list byte) :
  wf c -> wf (snd (Open c dst nonce ciphertext ad)).
Proof.
  intro Hwf. unfold Open.
  destruct (negb (len nonce =? nonceSize c)); [assumption|].
  destruct (len ciphertext <=? tagSize c); [assumption|].
  destruct (maxUnsignedVarInt (15 - nonceSize c) <? uint64 (len ciphertext - tagSize c));
    [assumption|].
  cbn [sliceForAppend].
  match goal with |- context [getTag c ?ctr ad ?pt] =>
    destruct (getTag c ctr ad pt) as [T c'] eqn:E;
    assert (Hc : wf c') by (change c' with (snd (T, c')); rewrite <- E; now apply getTag_wf)
  end.
  match goal with |- context [if ?b then _ else _] => destruct b end; assumption.
Qed.

(** ** Construction *)

Lemma land1_even (T : Z) : (Z.land T 1 =? 0) = Z.even T.
Proof.
  change 1 with (Z.ones 1) at 1. rewrite Z.land_ones by lia. change (2 ^ 1) with 2.
  destruct (Z.even T) eqn:E.
  - apply Z.even_spec in E. destruct E as [k ->]. apply Z.eqb_eq.
    Z.div_mod_to_equations. lia.
  - assert (O : Z.odd T = true) by (rewrite <- Z.negb_even, E; reflexivity).
    apply Z.odd_spec in O. destruct O as [k ->]. apply Z.eqb_neq.
    Z.div_mod_to_equations. lia.
Qed.

(** C8. [NewCCM] fails with [ErrInvalidBlockSize] exactly when the block
    size of the cipher is not 16; otherwise with [ErrInvalidNonceSize]
    exactly when the nonce size is outside [7,13]; otherwise with
    [ErrInvalidTagSize] exactly when the tag size is outside [4,16] or odd;
    otherwise it returns an instance and no error.  In particular the nonce
    sizes 6 and 14 and the tag sizes 3, 5 and 18 are rejected. *)
Theorem NewCCM_validation (b : Block) (N T : Z) :
  (snd (NewCCM b N T) = Some ErrInvalidBlockSize <-> BlockSize b <> 16) /\
  (BlockSize b = 16 ->
   (snd (NewCCM b N T) = Some ErrInvalidNonceSize <-> ~ (7 <= N <= 13))) /\
  (BlockSize b = 16 -> 7 <= N <= 13 ->
   (snd (NewCCM b N T) = Some ErrInvalidTagSize
    <-> ~ (4 <= T <= 16) \/ Z.odd T = true)) /\
  (BlockSize b = 16 -> 7 <= N <= 13 -> 4 <= T <= 16 -> Z.even T = true ->
   NewCCM b N T
   = (Some {| blockCipher := b; mac := newCBCMACFromBlock b;
              nonceSize := N; tagSize := T |}, None)) /\
  (BlockSize b = 16 ->
   snd (NewCCM b 6 T) = Some ErrInvalidNonceSize /\
   snd (NewCCM b 14 T) = Some ErrInvalidNonceSize /\
   (7 <= N <= 13 ->
    snd (NewCCM b N 3) = Some ErrInvalidTagSize /\
    snd (NewCCM b N 5) = Some ErrInvalidTagSize /\
    snd (NewCCM b N 18) = Some ErrInvalidTagSize)).
Proof.
  assert (Shape : forall n t,
    NewCCM b n t =
    if negb (BlockSize b =? 16) then (None, Some ErrInvalidBlockSize)
    else if negb ((7 <=? n) && (n <=? 13)) then (None, Some ErrInvalidNonceSize)
    else if negb ((4 <=? t) && (t <=? 16) && Z.even t) then (None, Some ErrInvalidTagSize)
    else (Some {| blockCipher := b; mac := newCBCMACFromBlock b;
                  nonceSize := n; tagSize := t |}, None)).
  { intros n t. unfold NewCCM, CbcMacBlockSize. now rewrite land1_even. }
  assert (OddEven : forall t, Z.odd t = negb (Z.even t))
    by (intro t; now rewrite <- Z.negb_even).
  rewrite !Shape, OddEven.
  destruct (Z.eqb_spec (BlockSize b) 16) as [Hb|Hb];
    destruct (Z.leb_spec 7 N); destruct (Z.leb_spec N 13);
    destruct (Z.leb_spec 4 T); destruct (Z.leb_spec T 16);
    destruct (Z.even T); simpl;
    intuition (congruence || lia).
Qed.

Lemma NewCCM_validation_witness :
  NewCCM demoBlock 13 4 = (Some (demoCCM 13 4), None) /\
  snd (NewCCM demoBlock 6 4) = Some ErrInvalidNonceSize /\
  snd (NewCCM demoBlock 13 5) = Some ErrInvalidTagSize.
Proof.
  destruct (NewCCM_validation demoBlock 13 4) as (_ & _ & _ & Hok & Hrej).
  split; [|split].
  - apply Hok; [reflexivity | lia | lia | reflexivity].
  - apply Hrej. reflexivity.
  - apply Hrej; [reflexivity | lia].
Defined.

(** ** The cursor of the accumulator *)

(** C9, as the spec states it, fails: sixteen bytes written to a fresh
    accumulator leave the cursor at 16, with no encryption done yet. *)
Lemma cursor_reaches_block_size :
  p (run (newCBCMACFromBlock demoBlock) [OpWrite (make 16)]) = 16 /\
  ~ (0 <= p (run (newCBCMACFromBlock demoBlock) [OpWrite (make 16)]) < 16) /\
  ci (run (newCBCMACFromBlock demoBlock) [OpWrite (make 16)]) = make 16.
Proof. vm_compute. repeat split; try reflexivity. intros [_ H]. discriminate H. Qed.

(** C9, amended.  On an accumulator over a 16-byte cipher the cursor
    satisfies [0 <= p <= 16] after every run of operations.  [Write] flushes
    lazily: a byte that arrives while the cursor is at 16 first has the
    accumulator encrypted and the cursor reset, so a write leaves the cursor
    between 1 and 16, and at 16 when it ends on a block boundary; [PadZero],
    [Sum] and [Reset] leave it at 0. *)
Theorem cursor_bounded (b : Block) (ops : list op) :
  BlockSize b = 16 ->
  let m := run (newCBCMACFromBlock b) ops in
  (len (ci m) = 16 /\ 0 <= p m <= 16) /\
  (forall c, p m = 16 -> write_byte m c = write_byte (flush m) c) /\
  (forall bs, bs <> [] -> 1 <= p (Write m bs) <= 16) /\
  (forall bs, p m + len bs <= 16 -> p (Write m bs) = p m + len bs) /\
  p (PadZero m) = 0 /\ p (fst (Sum m [])) = 0 /\ p (Reset m) = 0.
Proof.
  intros Hb m.
  assert (Hm : mac_inv m) by (apply run_inv, newCBCMACFromBlock_inv, Hb).
  pose proof Hm as [Hl Hp].
  split; [exact Hm|]. split; [|split; [|split; [|split; [|split]]]].
  - intros c Hfull. apply write_byte_on_full. lia.
  - intros bs Hne. split.
    + now apply Write_cursor_positive.
    + now apply (Write_inv bs m Hm).
  - intros bs Hfit. apply Write_cursor_advance; lia.
  - now apply PadZero_inv.
  - now apply (Sum_inv m []).
  - reflexivity.
Qed.

Lemma cursor_bounded_witness :
  0 <= p (run (newCBCMACFromBlock demoBlock)
            [OpWrite [1; 2; 3]; OpPadZero; OpWrite (make 16)]) <= 16 /\
  p (PadZero (run (newCBCMACFromBlock demoBlock)
                [OpWrite [1; 2; 3]; OpPadZero; OpWrite (make 16)])) = 0.
Proof.
  destruct (cursor_bounded demoBlock [OpWrite [1; 2; 3]; OpPadZero; OpWrite (make 16)]
              eq_refl) as ((_ & Hp) & _ & _ & _ & Hz & _).
  split; [exact Hp | exact Hz].
Defined.

(** ** The length prefix of the associated data *)

(** The three tiers as the code has them, over any 16-byte B0. *)
Lemma adLenPrefix_tiers
  (b0 b1 b2 b3 b4 b5 b6 b7 b8 b9 b10 b11 b12 b13 b14 b15 : byte) (n : Z) :
  0 <= n < 2 ^ 63 ->
  let B0 := [b0; b1; b2; b3; b4; b5; b6; b7; b8; b9; b10; b11; b12; b13; b14; b15] in
  (n < 2 ^ 15 - 2 ^ 7 -> adLenPrefix B0 n = be_encode 2 n) /\
  (2 ^ 15 - 2 ^ 7 <= n <= 2 ^ 31 - 1 -> adLenPrefix B0 n = 255 :: 254 :: be_encode 4 n) /\
  (2 ^ 31 - 1 < n -> adLenPrefix B0 n = 255 :: 255 :: be_encode 8 n).
Proof.
  intros Hn B0. unfold adLenPrefix, adLenHeader.
  change (Z.shiftl 1 15 - Z.shiftl 1 7) with (2 ^ 15 - 2 ^ 7).
  change (Z.shiftl 1 31 - 1) with (2 ^ 31 - 1).
  rewrite uint64_small by lia.
  unfold through_range, through_from, through_to.
  rewrite !putUVarInt_be_encode.
  repeat split; intro H;
    destruct (Z.ltb_spec n (2 ^ 15 - 2 ^ 7)); try lia;
    destruct (Z.leb_spec n (2 ^ 31 - 1)); try lia; reflexivity.
Qed.

(** C2 at its boundary.  An associated-data length of [2^16 - 2^8 - 1], and
    already one of [2^15 - 2^7], gets the 6-byte prefix [0xFF 0xFE] and a
    32-bit length, whatever the 16 bytes of B0 are; the 2-byte prefix ends
    at [2^15 - 2^7 - 1].  The comparison in [getTag] is against
    [1<<15 - 1<<7], not [1<<16 - 1<<8]. *)
Theorem adLenPrefix_threshold
  (b0 b1 b2 b3 b4 b5 b6 b7 b8 b9 b10 b11 b12 b13 b14 b15 : byte) :
  let B0 := [b0; b1; b2; b3; b4; b5; b6; b7; b8; b9; b10; b11; b12; b13; b14; b15] in
  adLenPrefix B0 (2 ^ 16 - 2 ^ 8 - 1) = [255; 254; 0; 0; 254; 255] /\
  adLenPrefix B0 (2 ^ 15 - 2 ^ 7) = [255; 254; 0; 0; 127; 128] /\
  adLenPrefix B0 (2 ^ 15 - 2 ^ 7 - 1) = [127; 127] /\
  adLenPrefix B0 (2 ^ 31 - 1) = [255; 254; 127; 255; 255; 255] /\
  adLenPrefix B0 (2 ^ 31) = [255; 255; 0; 0; 0; 0; 128; 0; 0; 0].
Proof. repeat split; reflexivity. Qed.

(** ** Seal and Open: sizes and guards *)

Lemma getTag_snd (c : ccm) (ctr data plaintext : list byte) :
  wf c ->
  exists m, snd (getTag c ctr data plaintext) = with_mac c m /\ wf (with_mac c m).
Proof.
  intro Hwf. pose proof (getTag_wf c ctr data plaintext Hwf) as H.
  rewrite getTag_eq in *. cbv zeta in *. cbn [snd] in *. eexists. split; [reflexivity|exact H].
Qed.

(** The slice [Seal] returns is [len(plaintext) + T] bytes long, whatever
    [dst] is. *)
Lemma Seal_output (c : ccm) (dst nonce plaintext ad : list byte) :
  wf c -> len nonce = nonceSize c ->
  uint64 (len plaintext) <= maxPayload (nonceSize c) ->
  exists out m,
    Seal c dst nonce plaintext ad = (SealBytes out, with_mac c m) /\
    wf (with_mac c m) /\
    out = slice_to (dst ++ ctrCrypt c nonce plaintext ++ maskedMac c nonce ad plaintext)
                   (len plaintext + tagSize c) /\
    len out = len plaintext + tagSize c.
Proof.
  intros Hwf Hn Hmax. pose proof Hwf as (Hbs & Hblk & Hl & HN & HT & He).
  rewrite Seal_spec by assumption.
  destruct (getTag_snd c (Ctr1 c nonce) ad plaintext Hwf) as (m & -> & Hwf').
  eexists. exists m. split; [reflexivity|]. split; [assumption|]. split; [reflexivity|].
  pose proof (len_nonneg plaintext) as Hp.
  unfold len. rewrite length_slice_to.
  - unfold len. lia.
  - unfold len. rewrite !length_app, length_ctrCrypt, length_maskedMac by assumption.
    lia.
Qed.

(** The three guards of [Open], in the order of the source. *)
Lemma Open_guard_nonce (c : ccm) (dst nonce ciphertext ad : list byte) :
  len nonce <> nonceSize c ->
  Open c dst nonce ciphertext ad = ((None, Some ErrInvalidNonceSize), c).
Proof.
  intro H. unfold Open. apply Z.eqb_neq in H. now rewrite H.
Qed.

Lemma Open_guard_tag (c : ccm) (dst nonce ciphertext ad : list byte) :
  len nonce = nonceSize c -> len ciphertext <= tagSize c ->
  Open c dst nonce ciphertext ad = ((None, Some ErrInvalidTagSize), c).
Proof.
  intros Hn H. unfold Open. rewrite Hn, Z.eqb_refl. cbn [negb].
  apply Z.leb_le in H. now rewrite H.
Qed.

Lemma Open_guard_payload (c : ccm) (dst nonce ciphertext ad : list byte) :
  len nonce = nonceSize c -> tagSize c < len ciphertext ->
  maxUnsignedVarInt (15 - nonceSize c) < uint64 (len ciphertext - tagSize c) ->
  Open c dst nonce ciphertext ad = ((None, Some ErrMaxPayloadSizeReached), c).
Proof.
  intros Hn Ht H. unfold Open. rewrite Hn, Z.eqb_refl. cbn [negb].
  destruct (Z.leb_spec (len ciphertext) (tagSize c)); [lia|].
  apply Z.ltb_lt in H. now rewrite H.
Qed.

(** Past the guards, [Open] ends in an authentication failure or in
    success. *)
Lemma Open_past_guards (c : ccm) (dst nonce ciphertext ad : list byte) :
  wf c -> len nonce = nonceSize c -> tagSize c < len ciphertext ->
  uint64 (len ciphertext - tagSize c) <= maxPayload (nonceSize c) ->
  snd (fst (Open c dst nonce ciphertext ad)) = Some ErrAuthenticationFailed \/
  snd (fst (Open c dst nonce ciphertext ad)) = None.
Proof.
  intros Hwf Hn Ht Hmax.
  rewrite (Open_spec c dst nonce ciphertext ad Hwf Hn Ht Hmax).
  cbv zeta. destruct (negb _); [left|right]; reflexivity.
Qed.

(** C6. [Open] fails with [ErrInvalidNonceSize] exactly when the nonce
    length differs from N; otherwise with [ErrInvalidTagSize] exactly when the
    input is not longer than T bytes; otherwise with
    [ErrMaxPayloadSizeReached] exactly when [len(ciphertext) - T] exceeds
    [maxPayload(N)].  When one of the three checks fails, [Open] returns
    [nil] and has not touched the instance.  The length of the input is a Go
    [int]. *)
Theorem Open_guards (c : ccm) (dst nonce ciphertext ad : list byte) :
  wf c -> len ciphertext <= 2 ^ 63 - 1 ->
  (snd (fst (Open c dst nonce ciphertext ad)) = Some ErrInvalidNonceSize
   <-> len nonce <> nonceSize c) /\
  (len nonce = nonceSize c ->
   (snd (fst (Open c dst nonce ciphertext ad)) = Some ErrInvalidTagSize
    <-> len ciphertext <= tagSize c)) /\
  (len nonce = nonceSize c -> tagSize c < len ciphertext ->
   (snd (fst (Open c dst nonce ciphertext ad)) = Some ErrMaxPayloadSizeReached
    <-> maxPayload (nonceSize c) < len ciphertext - tagSize c)) /\
  (snd (fst (Open c dst nonce ciphertext ad)) = Some ErrInvalidNonceSize \/
   snd (fst (Open c dst nonce ciphertext ad)) = Some ErrInvalidTagSize \/
   snd (fst (Open c dst nonce ciphertext ad)) = Some ErrMaxPayloadSizeReached ->
   Open c dst nonce ciphertext ad
   = ((None, snd (fst (Open c dst nonce ciphertext ad))), c)).
Proof.
  intros Hwf Hint. pose proof Hwf as (Hbs & Hblk & Hl & HN & HT & He).
  destruct (Z.eq_dec (len nonce) (nonceSize c)) as [Hn|Hn].
  2:{ rewrite (Open_guard_nonce c dst nonce ciphertext ad Hn). cbn [fst snd].
      intuition congruence. }
  destruct (Z_le_gt_dec (len ciphertext) (tagSize c)) as [Ht|Ht].
  { rewrite (Open_guard_tag c dst nonce ciphertext ad Hn Ht). cbn [fst snd].
    intuition (congruence || lia). }
  assert (Hu : uint64 (len ciphertext - tagSize c) = len ciphertext - tagSize c).
  { apply uint64_small. lia. }
  destruct (Z_lt_le_dec (maxPayload (nonceSize c)) (len ciphertext - tagSize c))
    as [Hm|Hm].
  { rewrite (Open_guard_payload c dst nonce ciphertext ad Hn) by
      (try rewrite maxUnsignedVarInt_maxPayload by assumption; lia).
    cbn [fst snd]. intuition (congruence || lia). }
  destruct (Open_past_guards c dst nonce ciphertext ad Hwf Hn) as [E|E];
    try lia; rewrite E; intuition (congruence || lia).
Qed.

Lemma Open_guards_witness :
  snd (fst (Open (demoCCM 13 4) [] [1; 2; 3] [1; 2; 3; 4; 5] [])) = Some ErrInvalidNonceSize /\
  snd (fst (Open (demoCCM 13 4) [] demoNonce [1; 2; 3; 4] [])) = Some ErrInvalidTagSize /\
  snd (fst (Open (demoCCM 13 4) [] demoNonce (make 65540) [])) = Some ErrMaxPayloadSizeReached.
Proof.
  pose proof demoCCM_wf as Hwf.
  split; [|split].
  - apply (Open_guards (demoCCM 13 4) [] [1; 2; 3] [1; 2; 3; 4; 5] [] Hwf).
    + by_evaluation.
    + by_evaluation.
  - apply (Open_guards (demoCCM 13 4) [] demoNonce [1; 2; 3; 4] [] Hwf).
    + by_evaluation.
    + reflexivity.
    + by_evaluation.
  - apply (Open_guards (demoCCM 13 4) [] demoNonce (make 65540) [] Hwf).
    + by_evaluation.
    + reflexivity.
    + by_evaluation.
    + by_evaluation.
Defined.

(** C7. For a nonce of the right length, [Seal] on a plaintext longer than
    [maxPayload(N) = 2^(8*(15-N)) - 1] returns [nil]: no panic, no error, and
    the instance is untouched.  On a plaintext of at most [maxPayload(N)]
    bytes, so in particular of exactly that many, it goes on and returns a
    slice.  The length of the plaintext is a Go [int]. *)
Theorem Seal_payload_limit (c : ccm) (dst nonce plaintext ad : list byte) :
  wf c -> len nonce = nonceSize c -> len plaintext <= 2 ^ 63 - 1 ->
  maxPayload (nonceSize c) = 2 ^ (8 * (15 - nonceSize c)) - 1 /\
  (maxPayload (nonceSize c) < len plaintext ->
   Seal c dst nonce plaintext ad = (SealNil, c)) /\
  (len plaintext <= maxPayload (nonceSize c) ->
   exists out c', Seal c dst nonce plaintext ad = (SealBytes out, c') /\
                  len out = len plaintext + tagSize c).
Proof.
  intros Hwf Hn Hint. pose proof Hwf as (Hbs & Hblk & Hl & HN & HT & He).
  pose proof (len_nonneg plaintext) as Hp.
  assert (Hu : uint64 (len plaintext) = len plaintext) by (apply uint64_small; lia).
  split; [reflexivity|]. split.
  - intro Hbig. unfold Seal, NonceSize. rewrite Hn, Z.eqb_refl. cbn [negb].
    rewrite maxUnsignedVarInt_maxPayload, Hu by assumption.
    apply Z.ltb_lt in Hbig. now rewrite Hbig.
  - intro Hfit.
    destruct (Seal_output c dst nonce plaintext ad Hwf Hn) as (out & m & E & _ & _ & Ho);
      [lia|].
    now exists out, (with_mac c m).
Qed.

Lemma Seal_payload_limit_witness :
  Seal (demoCCM 13 4) [] demoNonce (make 65536) [] = (SealNil, demoCCM 13 4) /\
  exists out c', Seal (demoCCM 13 4) [] demoNonce (make 65535) [] = (SealBytes out, c') /\
                 len out = len (make 65535) + tagSize (demoCCM 13 4).
Proof.
  pose proof demoCCM_wf as Hwf.
  split.
  - apply (Seal_payload_limit (demoCCM 13 4) [] demoNonce (make 65536) [] Hwf).
    + reflexivity.
    + by_evaluation.
    + by_evaluation.
  - apply (Seal_payload_limit (demoCCM 13 4) [] demoNonce (make 65535) [] Hwf).
    + reflexivity.
    + by_evaluation.
    + by_evaluation.
Defined.

(** C10. [Seal] on an empty plaintext returns exactly T bytes, for every
    [dst]; [Open], on any instance with the same tag size, rejects every
    input of at most T bytes with [ErrInvalidTagSize] once the nonce has the
    right length; so what [Seal] returns for an empty plaintext is never
    opened: [Open] returns [nil] for it, with [ErrInvalidTagSize] when the
    nonce has the right length. *)
Theorem Seal_empty_never_opens (c : ccm) (dst nonce ad : list byte) :
  wf c -> len nonce = nonceSize c ->
  exists out c1,
    Seal c dst nonce [] ad = (SealBytes out, c1) /\
    len out = tagSize c /\
    (forall c2 d n short a,
        tagSize c2 = tagSize c -> len n = nonceSize c2 -> len short <= tagSize c ->
        fst (Open c2 d n short a) = (None, Some ErrInvalidTagSize)) /\
    (forall d n a,
        fst (fst (Open c1 d n out a)) = None /\
        (len n = nonceSize c -> fst (Open c1 d n out a) = (None, Some ErrInvalidTagSize))).
Proof.
  intros Hwf Hn. pose proof Hwf as (Hbs & Hblk & Hl & HN & HT & He).
  destruct (Seal_output c dst nonce [] ad Hwf Hn) as (out & m & E & _ & _ & Ho).
  { rewrite uint64_small by (vm_compute; split; congruence).
    pose proof (maxPayload_bounds (nonceSize c) HN). change (len (@nil byte)) with 0. lia. }
  change (len (@nil byte)) with 0 in Ho.
  exists out, (with_mac c m). split; [assumption|]. split; [lia|]. split.
  - intros c2 d n short a HT2 Hn2 Hs. rewrite Open_guard_tag; [reflexivity|assumption|lia].
  - intros d n a.
    destruct (Z.eq_dec (len n) (nonceSize c)) as [Hnn|Hnn].
    + rewrite Open_guard_tag; [split; reflexivity | exact Hnn | cbn [tagSize with_mac]; lia].
    + rewrite Open_guard_nonce by exact Hnn. split; [reflexivity|]. intro; contradiction.
Qed.

Lemma Seal_empty_never_opens_witness :
  exists out c1,
    Seal (demoCCM 13 4) [9; 9] demoNonce [] [7] = (SealBytes out, c1) /\
    len out = 4 /\
    fst (Open c1 [] demoNonce out [7]) = (None, Some ErrInvalidTagSize).
Proof.
  pose proof demoCCM_wf as Hwf.
  destruct (Seal_empty_never_opens (demoCCM 13 4) [9; 9] demoNonce [7] Hwf eq_refl)
    as (out & c1 & E & Ho & _ & Hopen).
  exists out, c1. split; [exact E|]. split; [exact Ho|].
  apply Hopen. reflexivity.
Defined.

(** C4 at a non-empty [dst].  With one byte in [dst], [Seal] returns
    [len(plaintext) + T] bytes and not [len(dst) + len(plaintext) + T]: the
    byte of [dst], the three bytes of ciphertext and only the first three of
    the four tag bytes that the same call returns after an empty [dst]. *)
Theorem Seal_nonempty_dst_cuts_tag :
  fst (Seal (demoCCM 13 4) [] demoNonce [1; 2; 3] [7; 7])
  = SealBytes [90; 88; 84; 3; 2; 7; 7] /\
  fst (Seal (demoCCM 13 4) [170] demoNonce [1; 2; 3] [7; 7])
  = SealBytes [170; 90; 88; 84; 3; 2; 7].
Proof. split; vm_compute; reflexivity. Qed.

(** ** Round trip *)

(** Two instances over the same cipher with the same parameters. *)
Lemma same_parameters_S0 (c c1 : ccm) (nonce : list byte) :
  blockCipher c1 = blockCipher c -> nonceSize c1 = nonceSize c ->
  S0 c1 nonce = S0 c nonce /\ Ctr1 c1 nonce = Ctr1 c nonce /\
  (forall text, ctrCrypt c1 nonce text = ctrCrypt c nonce text).
Proof.
  intros Hb HN. unfold S0, ctrCrypt, Ctr1, Ctr0. rewrite Hb, HN.
  repeat split; reflexivity.
Qed.

(** Any instance over the same cipher with the same parameters accepts what
    [Seal] computes for a non-empty plaintext, and gives the plaintext
    back after [dst]. *)
Lemma Open_accepts (c c1 : ccm) (dst nonce plaintext ad : list byte) :
  wf c -> wf c1 ->
  blockCipher c1 = blockCipher c -> nonceSize c1 = nonceSize c ->
  tagSize c1 = tagSize c ->
  len nonce = nonceSize c -> 0 < len plaintext <= maxPayload (nonceSize c) ->
  fst (Open c1 dst nonce
         (ctrCrypt c nonce plaintext
          ++ slice_to (maskedMac c nonce ad plaintext) (tagSize c)) ad)
  = (Some (dst ++ plaintext), None).
Proof.
  intros Hwf Hwf1 Hb HN1 HT1 Hn Hlen.
  pose proof Hwf as (Hbs & Hblk & Hl & HN & HT & He).
  pose proof Hwf1 as (_ & Hblk1 & Hl1 & _).
  pose proof (maxPayload_bounds (nonceSize c) HN) as Hmp.
  set (X := ctrCrypt c nonce plaintext).
  set (Y := slice_to (maskedMac c nonce ad plaintext) (tagSize c)).
  assert (HX : len X = len plaintext).
  { subst X. unfold len. now rewrite length_ctrCrypt. }
  assert (HY : len Y = tagSize c).
  { subst Y. unfold len. rewrite length_slice_to; [lia|].
    unfold len. rewrite length_maskedMac by assumption. lia. }
  assert (Hk : len (X ++ Y) - tagSize c1 = len X) by (rewrite len_app; lia).
  destruct (same_parameters_S0 c c1 nonce Hb HN1) as (ES0 & ECtr & ECrypt).
  assert (Hn1 : len nonce = nonceSize c1) by congruence.
  assert (Hlong : tagSize c1 < len (X ++ Y)) by (rewrite len_app; lia).
  assert (Hfit : uint64 (len (X ++ Y) - tagSize c1) <= maxPayload (nonceSize c1)).
  { rewrite Hk, HN1, uint64_small; lia. }
  rewrite (Open_spec c1 dst nonce (X ++ Y) ad Hwf1 Hn1 Hlong Hfit).
  cbv zeta. rewrite Hk, slice_to_app, slice_from_app, ECrypt, ECtr, ES0, HT1.
  subst X. rewrite ctrCrypt_involutive by assumption.
  rewrite (getTag_tag_stable c c1) by (try assumption; congruence).
  subst Y. unfold maskedMac.
  rewrite (xor_list_comm (S0 c nonce)), bytes_Equal_refl. reflexivity.
Qed.

(** C1, as the spec states it, fails on the empty plaintext: [Seal] returns
    the T bytes of the tag and [Open] rejects them as too short. *)
Lemma roundtrip_fails_on_empty_plaintext :
  NewCCM demoBlock 13 4 = (Some (demoCCM 13 4), None) /\
  len demoNonce = 13 /\
  len (@nil byte) <= maxPayload 13 /\
  openSealed (demoCCM 13 4) demoNonce [] [] = Some (None, Some ErrInvalidTagSize) /\
  openSealed (demoCCM 13 4) demoNonce [] [] <> Some (Some [], None).
Proof.
  split; [reflexivity|]. split; [reflexivity|]. split; [by_evaluation|].
  assert (E : openSealed (demoCCM 13 4) demoNonce [] []
              = Some (None, Some ErrInvalidTagSize)) by (vm_compute; reflexivity).
  split; [exact E|]. rewrite E. discriminate.
Qed.

(** C1, amended.  On an instance built with a 16-byte cipher, a nonce size N
    in [7,13] and an even tag size T in [4,16], for every nonce of length N,
    every associated data and every non-empty plaintext of at most
    [maxPayload(N)] bytes, [Open(nil, nonce, Seal(nil, nonce, plaintext, ad),
    ad)] returns no error and exactly the plaintext. *)
Theorem Open_Seal_roundtrip (c : ccm) (nonce plaintext ad : list byte) :
  wf c -> len nonce = nonceSize c ->
  plaintext <> [] -> len plaintext <= maxPayload (nonceSize c) ->
  openSealed c nonce plaintext ad = Some (Some plaintext, None).
Proof.
  intros Hwf Hn Hne Hmax. pose proof Hwf as (Hbs & Hblk & Hl & HN & HT & He).
  pose proof (maxPayload_bounds (nonceSize c) HN) as Hmp.
  pose proof (len_nonneg plaintext) as Hp.
  assert (Hpos : 0 < len plaintext).
  { destruct (Z.eq_dec (len plaintext) 0) as [E|E]; [|lia].
    apply len_nil_iff in E. contradiction. }
  unfold openSealed.
  destruct (Seal_output c [] nonce plaintext ad Hwf Hn) as (out & m & E & Hwf1 & Hout & _).
  { rewrite uint64_small; lia. }
  rewrite E. f_equal.
  rewrite Hout, app_nil_l.
  replace (len plaintext) with (len (ctrCrypt c nonce plaintext))
    by (unfold len; now rewrite length_ctrCrypt).
  rewrite slice_to_app_more by lia.
  rewrite (Open_accepts c (with_mac c m) [] nonce plaintext ad);
    try assumption; try reflexivity; lia.
Qed.

Lemma Open_Seal_roundtrip_witness :
  openSealed (demoCCM 13 4) demoNonce [1; 2; 3] [7; 7] = Some (Some [1; 2; 3], None).
Proof.
  apply (Open_Seal_roundtrip (demoCCM 13 4) demoNonce [1; 2; 3] [7; 7]).
  - exact demoCCM_wf.
  - reflexivity.
  - discriminate.
  - by_evaluation.
Defined.

(** ** The first MAC block *)

(** [formatB0] overwrites the whole counter field, so it gives the same
    block from Ctr1 as from Ctr0. *)
Lemma formatB0_Ctr1 (c : ccm) (nonce ad plaintext : list byte) :
  wf c -> len nonce = nonceSize c ->
  formatB0 c (Ctr1 c nonce) ad plaintext
  = flagsB0 c ad :: nonce
    ++ be_encode (Z.to_nat (15 - nonceSize c)) (uint64 (len plaintext)).
Proof.
  intros (_ & _ & _ & HN & _) Hn.
  destruct (Ctr1_layout c nonce) as (tail & Ht & ->); [lia | assumption |].
  rewrite formatB0_layout by assumption. now rewrite Ht.
Qed.

Lemma formatB0_Ctr0 (c : ccm) (nonce ad plaintext : list byte) :
  wf c -> len nonce = nonceSize c ->
  formatB0 c (Ctr0 c nonce) ad plaintext
  = flagsB0 c ad :: nonce
    ++ be_encode (Z.to_nat (15 - nonceSize c)) (uint64 (len plaintext)).
Proof.
  intros (_ & _ & _ & HN & _) Hn.
  rewrite Ctr0_layout by (assumption || lia).
  rewrite formatB0_layout by assumption. now rewrite length_make.
Qed.

Lemma getTag_Ctr1_Ctr0 (c : ccm) (nonce ad plaintext : list byte) :
  wf c -> len nonce = nonceSize c ->
  getTag c (Ctr1 c nonce) ad plaintext = getTag c (Ctr0 c nonce) ad plaintext.
Proof.
  intros Hwf Hn. rewrite !getTag_eq. cbv zeta.
  now rewrite formatB0_Ctr1, formatB0_Ctr0.
Qed.

(** The accumulator is fed B0, the encoded associated data, the padding,
    the plaintext and the padding. *)
Lemma getTag_mac_input (c : ccm) (ctr ad plaintext : list byte) :
  len (ci (mac c)) = 16 -> len ctr = 16 ->
  fst (getTag c ctr ad plaintext)
  = snd (Sum (PadZero (Write (PadZero (Write (Reset (mac c))
                 (formatB0 c ctr ad plaintext
                  ++ encodedAD (formatB0 c ctr ad plaintext) ad)))
               plaintext)) []).
Proof.
  intros Hl Hctr. rewrite getTag_eq. cbv zeta. cbn [fst].
  unfold encodedAD. set (B0 := formatB0 c ctr ad plaintext).
  destruct (0 <? len ad).
  - now rewrite !Write_app.
  - rewrite app_nil_r.
    destruct (Reset_inv (mac c) Hl) as [[HlR _] HpR].
    assert (HB : len B0 = 16) by (subst B0; now rewrite len_formatB0).
    rewrite PadZero_Write_on_full; [reflexivity| |].
    + assert (Hi : mac_inv (Write (Reset (mac c)) B0))
        by (apply Write_inv; split; lia).
      destruct Hi as [Hi _]. lia.
    + assert (Hi : mac_inv (Write (Reset (mac c)) B0))
        by (apply Write_inv; split; lia).
      destruct Hi as [Hi _]. rewrite Hi.
      rewrite Write_cursor_advance; lia.
Qed.

(** * Further properties of the accumulator *)

(** Bytes written inside the current block are XORed in place, one after
    the other, and nothing is encrypted. *)
Lemma Write_within_block (bs : list byte) (m : cbcMac) (pre rest : list byte) :
  ci m = pre ++ rest -> p m = len pre -> (length bs <= length rest)%nat ->
  Write m bs
  = {| ci := pre ++ xor_list rest bs ++ skipn (length bs) rest;
       p := len pre + len bs;
       block := block m |}.
Proof.
  revert m pre rest. induction bs as [|c bs IH]; intros m pre rest Hci Hp Hfit.
  - destruct m as [ci0 p0 b0]. cbn in *. subst.
    destruct rest; cbn; f_equal; unfold len; cbn; lia.
  - destruct rest as [|x rest]; [cbn in Hfit; lia|].
    change (Write m (c :: bs)) with (Write (write_byte m c) bs).
    assert (Hw : write_byte m c
                 = {| ci := (pre ++ [Z.lxor x c]) ++ rest;
                      p := len (pre ++ [Z.lxor x c]);
                      block := block m |}).
    { unfold write_byte.
      destruct (Z.leb_spec (len (ci m)) (p m)) as [Hfull|_].
      - rewrite Hci, Hp, len_app in Hfull. unfold len in Hfull. cbn in Hfull. lia.
      - rewrite Hci, Hp. f_equal.
        + replace (len pre) with (len pre + 0) by lia.
          rewrite modify_app by lia. rewrite modify_head, <- app_assoc. reflexivity.
        + rewrite len_app. reflexivity. }
    rewrite Hw. rewrite (IH _ (pre ++ [Z.lxor x c]) rest); cbn [ci p block];
      try reflexivity; [|cbn in Hfit; lia].
    f_equal.
    + rewrite <- app_assoc. reflexivity.
    + rewrite len_app. unfold len. cbn [length]. lia.
Qed.

Lemma xor_list_zeros (s : list byte) (k : nat) :
  xor_list s (repeat 0 k) ++ skipn k s = s.
Proof.
  revert k. induction s as [|x s IH]; intros [|k]; cbn; try reflexivity.
  now rewrite Z.lxor_0_r, IH.
Qed.

(** Zero bytes that stay inside the block only move the cursor. *)
Lemma Write_zeros (m : cbcMac) (k : Z) :
  0 <= p m -> 0 <= k -> p m + k <= len (ci m) ->
  Write m (make k) = {| ci := ci m; p := p m + k; block := block m |}.
Proof.
  intros Hp Hk Hfit.
  rewrite (Write_within_block (make k) m (slice_to (ci m) (p m))
             (slice_from (ci m) (p m))).
  - f_equal.
    + unfold make at 1 2. rewrite repeat_length, xor_list_zeros.
      apply firstn_skipn.
    + unfold len. rewrite length_make, length_slice_to; lia.
  - unfold slice_to, slice_from. symmetry. apply firstn_skipn.
  - unfold len. rewrite length_slice_to; lia.
  - unfold slice_from. rewrite length_make, length_skipn. unfold len in Hfit. lia.
Qed.

Lemma block_step (m : cbcMac) (o : op) : block (step m o) = block m.
Proof.
  destruct o; cbn [step].
  - apply block_Write.
  - apply block_PadZero.
  - rewrite Sum_PadZero. apply block_PadZero.
  - reflexivity.
Qed.

Lemma block_run (ops : list op) (m : cbcMac) : block (run m ops) = block m.
Proof.
  revert m. induction ops as [|o ops IH]; intro m; [reflexivity|].
  change (run m (o :: ops)) with (run (step m o) ops).
  now rewrite IH, block_step.
Qed.

(** X1. [Reset] gives back the accumulator that [newCBCMACFromBlock] built,
    whatever was written, padded or summed before; [Size] and [BlockSize]
    agree on every such accumulator. *)
Theorem Reset_is_fresh (b : Block) (ops : list op) :
  BlockSize b = 16 ->
  Reset (run (newCBCMACFromBlock b) ops) = newCBCMACFromBlock b /\
  Size (run (newCBCMACFromBlock b) ops) = macBlockSize (run (newCBCMACFromBlock b) ops).
Proof.
  intro Hb.
  destruct (run_inv ops _ (newCBCMACFromBlock_inv b Hb)) as [Hl _].
  split; [|exact Hl].
  rewrite (Reset_determined _ (newCBCMACFromBlock b)).
  - unfold Reset, newCBCMACFromBlock. cbn [ci p block]. f_equal.
    rewrite Hb. reflexivity.
  - apply block_run.
  - rewrite Hl. cbn [newCBCMACFromBlock ci]. rewrite Hb. reflexivity.
Qed.

Lemma Reset_is_fresh_witness :
  Reset (run (newCBCMACFromBlock demoBlock) [OpWrite [1; 2; 3]; OpSum; OpWrite (make 20)])
  = newCBCMACFromBlock demoBlock.
Proof.
  apply (Reset_is_fresh demoBlock [OpWrite [1; 2; 3]; OpSum; OpWrite (make 20)]).
  reflexivity.
Defined.

(** Zero bytes written behind pending bytes, without leaving the block, are
    absorbed by the padding. *)
Lemma PadZero_Write_zeros (m : cbcMac) (k : Z) :
  0 < p m -> 0 <= k -> p m + k <= len (ci m) ->
  PadZero (Write m (make k)) = PadZero m.
Proof.
  intros Hp Hk Hfit. rewrite Write_zeros by lia.
  unfold PadZero. cbn [p].
  destruct (Z.eqb_spec (p m + k) 0); [lia|].
  destruct (Z.eqb_spec (p m) 0); [lia|].
  reflexivity.
Qed.

(** X2. [PadZero] emulates zero-byte padding: once something is pending in
    the block, writing zero bytes up to the end of the block, or to any
    point before it, and padding gives the accumulator that padding alone
    gives. *)
Theorem PadZero_emulates_zero_padding (m : cbcMac) (bs : list byte) (k : Z) :
  mac_inv m -> bs <> [] -> 0 <= k <= 16 - p (Write m bs) ->
  PadZero (Write m (bs ++ make k)) = PadZero (Write m bs).
Proof.
  intros Hm Hne Hk. rewrite Write_app.
  pose proof (Write_inv bs m Hm) as [Hl Hp].
  pose proof (Write_cursor_positive bs m Hm Hne) as Hpos.
  apply PadZero_Write_zeros; lia.
Qed.

Lemma PadZero_emulates_zero_padding_witness :
  PadZero (Write (newCBCMACFromBlock demoBlock) ([1; 2; 3] ++ make 13))
  = PadZero (Write (newCBCMACFromBlock demoBlock) [1; 2; 3]).
Proof.
  apply (PadZero_emulates_zero_padding (newCBCMACFromBlock demoBlock) [1; 2; 3] 13).
  - apply newCBCMACFromBlock_inv. reflexivity.
  - discriminate.
  - by_evaluation.
Defined.

(** A whole block written on a flushed accumulator, then the flush. *)
Lemma Write_full_block (m : cbcMac) (blk : list byte) :
  len (ci m) = 16 -> p m = 0 -> len blk = 16 ->
  Write m blk = {| ci := xor_list (ci m) blk; p := 16; block := block m |}.
Proof.
  intros Hl Hp Hb.
  rewrite (Write_within_block blk m [] (ci m)); try assumption;
    [|reflexivity|unfold len in *; lia].
  cbn [app]. f_equal.
  - replace (length blk) with (length (ci m)) by (unfold len in *; lia).
    rewrite skipn_all. apply app_nil_r.
  - rewrite Hb. reflexivity.
Qed.

Lemma Write_blocks_then (blocks : list (list byte)) (m : cbcMac) (tail : list byte) :
  len (ci m) = 16 -> p m = 0 -> Forall (fun blk => len blk = 16) blocks ->
  PadZero (Write m (concat blocks ++ tail))
  = PadZero (Write {| ci := cbcChain (block m) (ci m) blocks; p := 0;
                      block := block m |} tail).
Proof.
  revert m. induction blocks as [|blk blocks IH]; intros m Hl Hp Hall.
  - destruct m as [ci0 p0 b0]. cbn in *. subst. reflexivity.
  - inversion Hall as [|? ? Hblk Hrest]; subst.
    cbn [concat]. rewrite <- app_assoc, Write_app.
    rewrite (Write_full_block m blk Hl Hp Hblk).
    set (m1 := {| ci := xor_list (ci m) blk; p := 16; block := block m |}).
    assert (Hl1 : len (ci m1) = 16).
    { subst m1. cbn [ci]. unfold len in *. rewrite length_xor_list. lia. }
    rewrite <- (PadZero_Write_on_full m1) by (rewrite Hl1; cbn; lia).
    assert (Hpad : PadZero m1 = {| ci := cbcStep (block m) (ci m) blk; p := 0;
                                   block := block m |}) by reflexivity.
    rewrite Hpad, IH; cbn [ci p block]; try assumption; try reflexivity.
    unfold cbcStep, len. rewrite length_Encrypt. exact Hl1.
Qed.

(** A last block that is not full, on a flushed accumulator. *)
Lemma Write_partial_block (m : cbcMac) (last : list byte) :
  len (ci m) = 16 -> p m = 0 -> 0 < len last <= 16 ->
  PadZero (Write m last)
  = {| ci := cbcStep (block m) (ci m) (last ++ make (16 - len last)); p := 0;
       block := block m |}.
Proof.
  intros Hl Hp Hlast.
  assert (Hcur : p (Write m last) = len last)
    by (rewrite Write_cursor_advance; lia).
  assert (Hci : len (ci (Write m last)) = 16).
  { apply (Write_inv last m). split; lia. }
  rewrite <- (PadZero_Write_zeros (Write m last) (16 - len last)) by lia.
  rewrite <- Write_app.
  replace (last ++ make (16 - len last))
    with (concat [last ++ make (16 - len last)] ++ []) at 1
    by (cbn [concat]; now rewrite !app_nil_r).
  rewrite Write_blocks_then; try assumption.
  - destruct m as [ci0 p0 b0]. cbn in *. subst. reflexivity.
  - constructor; [|constructor]. rewrite len_app, len_make; lia.
Qed.

Lemma len_cbcChain (b : Block) (blocks : list (list byte)) (acc : list byte) :
  len acc = 16 -> Forall (fun blk => len blk = 16) blocks ->
  len (cbcChain b acc blocks) = 16.
Proof.
  intros Hacc Hall. revert acc Hacc.
  induction Hall as [|blk blocks Hblk _ IH]; intros acc Hacc; [exact Hacc|].
  cbn [cbcChain fold_left]. apply IH.
  unfold cbcStep, len in *. rewrite length_Encrypt, length_xor_list. lia.
Qed.

(** X3. The accumulator computes a CBC chain.  From a flushed state, writing
    whole 16-byte blocks and padding leaves the chain [E(acc XOR block)] over
    those blocks; a last block that is not full enters the chain padded
    with zero bytes. *)
Theorem Write_is_CBC_chain (m : cbcMac) (blocks : list (list byte)) (last : list byte) :
  len (ci m) = 16 -> p m = 0 -> Forall (fun blk => len blk = 16) blocks ->
  PadZero (Write m (concat blocks))
  = {| ci := cbcChain (block m) (ci m) blocks; p := 0; block := block m |} /\
  (0 < len last <= 16 ->
   PadZero (Write m (concat blocks ++ last))
   = {| ci := cbcChain (block m) (ci m) (blocks ++ [last ++ make (16 - len last)]);
        p := 0; block := block m |}).
Proof.
  intros Hl Hp Hall. split.
  - rewrite <- (app_nil_r (concat blocks)), Write_blocks_then by assumption.
    reflexivity.
  - intro Hlast. rewrite Write_blocks_then by assumption.
    rewrite Write_partial_block; cbn [ci p block]; try assumption; try reflexivity.
    + unfold cbcChain. rewrite fold_left_app. reflexivity.
    + now apply len_cbcChain.
Qed.

Lemma Write_is_CBC_chain_witness :
  PadZero (Write (newCBCMACFromBlock demoBlock) (concat [make 16; demoNonce ++ [1; 2; 3]] ++ [7; 7]))
  = {| ci := cbcChain demoBlock (make 16)
               ([make 16; demoNonce ++ [1; 2; 3]] ++ [[7; 7] ++ make 14]);
       p := 0; block := demoBlock |}.
Proof.
  apply (Write_is_CBC_chain (newCBCMACFromBlock demoBlock)
           [make 16; demoNonce ++ [1; 2; 3]] [7; 7]).
  - reflexivity.
  - reflexivity.
  - repeat constructor.
  - split; by_evaluation.
Defined.

(** X4. The input may be split over any number of [Write] calls: the
    accumulator ends as after one [Write] of the concatenation. *)
Theorem Write_chunks (chunks : list (list byte)) (m : cbcMac) :
  fold_left Write chunks m = Write m (concat chunks).
Proof.
  revert m. induction chunks as [|a chunks IH]; intro m; [reflexivity|].
  cbn [fold_left concat]. now rewrite IH, Write_app.
Qed.

(** X5. [Sum] appends the 16 bytes of the MAC to its argument and leaves the
    cursor at 0; a second [Sum] returns the same MAC and changes nothing;
    and a [PadZero] before [Sum] makes no difference. *)
Theorem Sum_appends_mac (m : cbcMac) (b b' : list byte) :
  mac_inv m ->
  snd (Sum m b) = b ++ snd (Sum m []) /\
  len (snd (Sum m b)) = len b + 16 /\
  Sum (fst (Sum m b)) b' = (fst (Sum m b), b' ++ snd (Sum m [])) /\
  Sum (PadZero m) b = Sum m b.
Proof.
  intro Hm. pose proof (len_Sum m Hm) as Hl.
  assert (Hz : p (PadZero m) = 0) by now apply PadZero_inv.
  assert (Hid : forall x, Sum (PadZero m) x = (PadZero m, x ++ ci (PadZero m))).
  { intro x. unfold Sum. rewrite Hz. reflexivity. }
  assert (Hs : forall x, Sum m x = (PadZero m, x ++ ci (PadZero m))) by reflexivity.
  rewrite !Hs in *. cbn [fst snd app] in *.
  repeat split.
  - rewrite len_app. lia.
  - apply Hid.
  - apply Hid.
Qed.

Lemma Sum_appends_mac_witness :
  len (snd (Sum (Write (newCBCMACFromBlock demoBlock) [1; 2; 3]) [9; 9])) = len [9; 9] + 16.
Proof.
  apply (Sum_appends_mac (Write (newCBCMACFromBlock demoBlock) [1; 2; 3]) [9; 9] []).
  apply Write_inv, newCBCMACFromBlock_inv. reflexivity.
Defined.

(** * Further properties of the construction *)

Lemma Seal_guard_nonce (c : ccm) (dst nonce plaintext ad : list byte) :
  len nonce <> NonceSize c -> Seal c dst nonce plaintext ad = (SealPanic, c).
Proof. intro H. unfold Seal. apply Z.eqb_neq in H. now rewrite H. Qed.

Lemma Seal_guard_payload (c : ccm) (dst nonce plaintext ad : list byte) :
  len nonce = NonceSize c ->
  maxUnsignedVarInt (15 - nonceSize c) < uint64 (len plaintext) ->
  Seal c dst nonce plaintext ad = (SealNil, c).
Proof.
  intros Hn H. unfold Seal. rewrite Hn, Z.eqb_refl. cbn [negb].
  apply Z.ltb_lt in H. now rewrite H.
Qed.

Lemma alike_refl (c : ccm) : alike c c.
Proof. repeat split. Qed.

Lemma alike_trans (c1 c2 c3 : ccm) : alike c1 c2 -> alike c2 c3 -> alike c1 c3.
Proof. unfold alike. intuition congruence. Qed.

Lemma getTag_alike (c : ccm) (ctr data plaintext : list byte) :
  alike c (snd (getTag c ctr data plaintext)).
Proof. rewrite getTag_eq. cbv zeta. repeat split. Qed.

Lemma Seal_alike (c : ccm) (dst nonce plaintext ad : list byte) :
  alike c (snd (Seal c dst nonce plaintext ad)).
Proof.
  unfold Seal.
  destruct (negb (len nonce =? NonceSize c)); [apply alike_refl|].
  destruct (maxUnsignedVarInt (15 - nonceSize c) <? uint64 (len plaintext));
    [apply alike_refl|].
  cbn [sliceForAppend].
  destruct (getTag c (Ctr1 c nonce) ad plaintext) as [T c'] eqn:E.
  cbn [snd]. change c' with (snd (T, c')). rewrite <- E. apply getTag_alike.
Qed.

Lemma Open_alike (c : ccm) (dst nonce ciphertext ad : list byte) :
  alike c (snd (Open c dst nonce ciphertext ad)).
Proof.
  unfold Open.
  destruct (negb (len nonce =? nonceSize c)); [apply alike_refl|].
  destruct (len ciphertext <=? tagSize c); [apply alike_refl|].
  destruct (maxUnsignedVarInt (15 - nonceSize c) <? uint64 (len ciphertext - tagSize c));
    [apply alike_refl|].
  cbn [sliceForAppend].
  match goal with |- context [getTag c ?ctr ad ?pt] =>
    destruct (getTag c ctr ad pt) as [T c'] eqn:E;
    assert (Hc : alike c c')
      by (change c' with (snd (T, c')); rewrite <- E; apply getTag_alike)
  end.
  match goal with |- context [if ?b then _ else _] => destruct b end; assumption.
Qed.

Lemma perform_keeps (c : ccm) (k : call) :
  wf c -> wf (perform c k) /\ alike c (perform c k).
Proof.
  intro Hwf. destruct k; cbn [perform]; split.
  - now apply Seal_wf.
  - apply Seal_alike.
  - now apply Open_wf.
  - apply Open_alike.
Qed.

Lemma after_keeps (ks : list call) (c : ccm) :
  wf c -> wf (after c ks) /\ alike c (after c ks).
Proof.
  revert c. induction ks as [|k ks IH]; intros c Hwf.
  - split; [assumption | apply alike_refl].
  - change (after c (k :: ks)) with (after (perform c k) ks).
    destruct (perform_keeps c k Hwf) as [Hwf1 Ha1].
    destruct (IH _ Hwf1) as [Hwf2 Ha2].
    split; [assumption|]. now apply (alike_trans c (perform c k)).
Qed.

Lemma instance_stays_valid_parts (b : Block) (N T : Z) (c : ccm) (ks : list call) :
  NewCCM b N T = (Some c, None) ->
  wf (after c ks) /\ alike c (after c ks) /\ nonceSize c = N.
Proof.
  intro Hnew. pose proof (NewCCM_wf b N T c Hnew) as Hwf.
  destruct (after_keeps ks c Hwf) as [Hwf' Ha].
  split; [assumption|]. split; [assumption|].
  revert Hnew. unfold NewCCM.
  destruct (negb (BlockSize b =? CbcMacBlockSize)); [discriminate|].
  destruct (negb ((7 <=? N) && (N <=? 13))); [discriminate|].
  destruct (negb ((4 <=? T) && (T <=? 16) && (Z.land T 1 =? 0))); [discriminate|].
  intro H. injection H as <-. reflexivity.
Qed.

(** X6. An instance stays valid for life.  After any sequence of [Seal] and
    [Open] calls on an instance that [NewCCM] returned, failed calls
    included, the cipher is the one given, [NonceSize] and [Overhead] still
    report the sizes given to [NewCCM], and the accumulator is 16 bytes
    long. *)
Theorem instance_stays_valid (b : Block) (N T : Z) (c : ccm) (ks : list call) :
  NewCCM b N T = (Some c, None) ->
  wf (after c ks) /\
  blockCipher (after c ks) = b /\
  NonceSize (after c ks) = N /\
  Overhead (after c ks) = T /\
  Size (mac (after c ks)) = 16.
Proof.
  intro Hnew. pose proof (NewCCM_wf b N T c Hnew) as Hwf.
  destruct (after_keeps ks c Hwf) as [Hwf' (Hb & HN & HT)].
  assert (Hfields : blockCipher c = b /\ nonceSize c = N /\ tagSize c = T).
  { revert Hnew. unfold NewCCM.
    destruct (negb (BlockSize b =? CbcMacBlockSize)); [discriminate|].
    destruct (negb ((7 <=? N) && (N <=? 13))); [discriminate|].
    destruct (negb ((4 <=? T) && (T <=? 16) && (Z.land T 1 =? 0))); [discriminate|].
    intro H. injection H as <-. repeat split. }
  destruct Hfields as (Fb & FN & FT).
  split; [assumption|]. unfold NonceSize, Overhead, Size.
  repeat split; try congruence. apply Hwf'.
Qed.

Lemma instance_stays_valid_witness :
  NonceSize (after (demoCCM 13 4)
               [CallSeal [] demoNonce [1; 2; 3] [7]; CallOpen [] [1] [2] [];
                CallSeal [] [1] [] []]) = 13 /\
  Overhead (after (demoCCM 13 4)
              [CallSeal [] demoNonce [1; 2; 3] [7]; CallOpen [] [1] [2] [];
               CallSeal [] [1] [] []]) = 4.
Proof.
  destruct (instance_stays_valid demoBlock 13 4 (demoCCM 13 4)
              [CallSeal [] demoNonce [1; 2; 3] [7]; CallOpen [] [1] [2] [];
               CallSeal [] [1] [] []] eq_refl) as (_ & _ & HN & HT & _).
  split; [exact HN | exact HT].
Defined.

(** What [Seal] returns does not depend on the accumulator it starts
    from. *)
Lemma Seal_stable (c c' : ccm) (dst nonce plaintext ad : list byte) :
  wf c -> wf c' -> alike c c' ->
  fst (Seal c' dst nonce plaintext ad) = fst (Seal c dst nonce plaintext ad).
Proof.
  intros Hwf Hwf' (Hb & HN & HT).
  pose proof Hwf as (_ & Hblk & Hl & HNr & _).
  pose proof Hwf' as (_ & Hblk' & Hl' & _).
  destruct (Z.eq_dec (len nonce) (nonceSize c)) as [Hn|Hn].
  2:{ rewrite (Seal_guard_nonce c), (Seal_guard_nonce c')
        by (unfold NonceSize; congruence). reflexivity. }
  destruct (Z_lt_le_dec (maxPayload (nonceSize c)) (uint64 (len plaintext))) as [Hm|Hm].
  { rewrite (Seal_guard_payload c), (Seal_guard_payload c')
      by (unfold NonceSize; try congruence;
          rewrite ?HN, maxUnsignedVarInt_maxPayload; assumption).
    reflexivity. }
  rewrite (Seal_spec c), (Seal_spec c') by (try assumption; congruence). cbn [fst].
  destruct (same_parameters_S0 c c' nonce Hb HN) as (ES0 & ECtr & ECrypt).
  unfold maskedMac. rewrite ECrypt, ES0, ECtr, HT.
  rewrite (getTag_tag_stable c c') by congruence. reflexivity.
Qed.

Lemma Open_stable (c c' : ccm) (dst nonce ciphertext ad : list byte) :
  wf c -> wf c' -> alike c c' ->
  fst (Open c' dst nonce ciphertext ad) = fst (Open c dst nonce ciphertext ad).
Proof.
  intros Hwf Hwf' (Hb & HN & HT).
  pose proof Hwf as (_ & Hblk & Hl & HNr & _).
  pose proof Hwf' as (_ & Hblk' & Hl' & _).
  destruct (Z.eq_dec (len nonce) (nonceSize c)) as [Hn|Hn].
  2:{ rewrite (Open_guard_nonce c), (Open_guard_nonce c') by congruence.
      reflexivity. }
  destruct (Z_le_gt_dec (len ciphertext) (tagSize c)) as [Ht|Ht].
  { rewrite (Open_guard_tag c), (Open_guard_tag c') by (congruence || lia).
    reflexivity. }
  destruct (Z_lt_le_dec (maxPayload (nonceSize c))
              (uint64 (len ciphertext - tagSize c))) as [Hm|Hm].
  { rewrite (Open_guard_payload c), (Open_guard_payload c')
      by (try congruence; try lia;
          rewrite ?HN, ?HT, maxUnsignedVarInt_maxPayload; assumption).
    reflexivity. }
  rewrite (Open_spec c), (Open_spec c')
    by (try assumption; try congruence; try lia; rewrite ?HN, ?HT; assumption).
  cbv zeta.
  destruct (same_parameters_S0 c c' nonce Hb HN) as (ES0 & ECtr & ECrypt).
  rewrite ECrypt, ES0, ECtr, HT.
  rewrite (getTag_tag_stable c c') by congruence.
  destruct (negb _); reflexivity.
Qed.

(** X7. What a call returns does not depend on the calls made before it on
    the same instance: [getTag] resets the accumulator, so [Seal] and [Open]
    return after any history what they return on the fresh instance. *)
Theorem results_independent_of_history
  (b : Block) (N T : Z) (c : ccm) (ks : list call) (dst nonce text ad : list byte) :
  NewCCM b N T = (Some c, None) ->
  fst (Seal (after c ks) dst nonce text ad) = fst (Seal c dst nonce text ad) /\
  fst (Open (after c ks) dst nonce text ad) = fst (Open c dst nonce text ad).
Proof.
  intro Hnew. pose proof (NewCCM_wf b N T c Hnew) as Hwf.
  destruct (after_keeps ks c Hwf) as [Hwf' Ha].
  split; [now apply Seal_stable | now apply Open_stable].
Qed.

Lemma results_independent_of_history_witness :
  fst (Seal (after (demoCCM 13 4) [CallSeal [] demoNonce (make 40) [7]; CallOpen [] demoNonce (make 9) []])
         [] demoNonce [1; 2; 3] [7; 7])
  = fst (Seal (demoCCM 13 4) [] demoNonce [1; 2; 3] [7; 7]).
Proof.
  apply (results_independent_of_history demoBlock 13 4 (demoCCM 13 4)
           [CallSeal [] demoNonce (make 40) [7]; CallOpen [] demoNonce (make 9) []]
           [] demoNonce [1; 2; 3] [7; 7]).
  reflexivity.
Defined.



Lemma firstn_app_firstn (a b : list byte) (k j : nat) :
  (k <= length a + j)%nat -> firstn k (a ++ firstn j b) = firstn k (a ++ b).
Proof.
  intro H. rewrite !firstn_app, firstn_firstn. do 2 f_equal. lia.
Qed.

Lemma Seal_nil_dst (c : ccm) (nonce plaintext ad : list byte) :
  wf c -> len nonce = nonceSize c ->
  uint64 (len plaintext) <= maxPayload (nonceSize c) ->
  fst (Seal c [] nonce plaintext ad)
  = SealBytes (ctrCrypt c nonce plaintext
               ++ slice_to (maskedMac c nonce ad plaintext) (tagSize c)).
Proof.
  intros Hwf Hn Hmax. pose proof Hwf as (Hbs & _ & _ & _ & HT & _).
  rewrite Seal_spec by assumption. cbn [fst app]. f_equal.
  replace (len plaintext) with (len (ctrCrypt c nonce plaintext))
    by (unfold len; now rewrite length_ctrCrypt).
  apply slice_to_app_more. lia.
Qed.

(** X12. For a ciphertext body there is exactly one tag that [Open]
    accepts.  On an input made of a non-empty body within [maxPayload(N)]
    and T more bytes, [Open] returns [dst] followed by the decrypted body
    when those T bytes are the expected tag, and [nil] with
    [ErrAuthenticationFailed] for every other T bytes. *)
Theorem Open_accepts_one_tag (c : ccm) (dst nonce body tag ad : list byte) :
  wf c -> len nonce = nonceSize c ->
  0 < len body <= maxPayload (nonceSize c) -> len tag = tagSize c ->
  (tag = expectedTag c nonce ad body ->
   fst (Open c dst nonce (body ++ tag) ad)
   = (Some (dst ++ ctrCrypt c nonce body), None)) /\
  (tag <> expectedTag c nonce ad body ->
   fst (Open c dst nonce (body ++ tag) ad) = (None, Some ErrAuthenticationFailed)).
Proof.
  intros Hwf Hn Hbody Htag. pose proof Hwf as (_ & _ & _ & HN & HT & _).
  pose proof (maxPayload_bounds _ HN) as Hmp.
  assert (Hk : len (body ++ tag) - tagSize c = len body) by (rewrite len_app; lia).
  rewrite Open_spec; try assumption; rewrite ?Hk; try lia;
    [|rewrite uint64_small; lia].
  cbv zeta. rewrite slice_to_app, slice_from_app.
  fold (expectedTag c nonce ad body).
  destruct (bytes_Equal (expectedTag c nonce ad body) tag) eqn:E; cbn [negb fst].
  - apply bytes_Equal_eq in E. split; [reflexivity|]. intro H. now elim H.
  - split; [|reflexivity]. intros ->. now rewrite bytes_Equal_refl in E.
Qed.

Lemma Open_accepts_one_tag_witness :
  fst (Open (demoCCM 13 4) [] demoNonce ([90; 88; 84] ++ [3; 2; 7; 7]) [7; 7])
  = (Some ([] ++ ctrCrypt (demoCCM 13 4) demoNonce [90; 88; 84]), None) /\
  fst (Open (demoCCM 13 4) [] demoNonce ([90; 88; 84] ++ [3; 2; 7; 6]) [7; 7])
  = (None, Some ErrAuthenticationFailed).
Proof.
  split.
  - apply (Open_accepts_one_tag (demoCCM 13 4) [] demoNonce [90; 88; 84] [3; 2; 7; 7]
             [7; 7] demoCCM_wf); try reflexivity.
    split; by_evaluation.
  - apply (Open_accepts_one_tag (demoCCM 13 4) [] demoNonce [90; 88; 84] [3; 2; 7; 6]
             [7; 7] demoCCM_wf); try reflexivity.
    + split; by_evaluation.
    + by_evaluation.
Defined.

(** X13. [Open] returns either a slice and no error, or [nil] and an error,
    never both and never neither; the error is never
    [ErrInvalidBlockSize]. *)
Theorem Open_result_exclusive (c : ccm) (dst nonce ciphertext ad : list byte) :
  (exists out, fst (Open c dst nonce ciphertext ad) = (Some out, None)) \/
  (exists e, fst (Open c dst nonce ciphertext ad) = (None, Some e) /\
             e <> ErrInvalidBlockSize).
Proof.
  unfold Open.
  destruct (negb (len nonce =? nonceSize c));
    [right; eexists; split; [reflexivity|discriminate]|].
  destruct (len ciphertext <=? tagSize c);
    [right; eexists; split; [reflexivity|discriminate]|].
  destruct (maxUnsignedVarInt (15 - nonceSize c) <? uint64 (len ciphertext - tagSize c));
    [right; eexists; split; [reflexivity|discriminate]|].
  cbn [sliceForAppend].
  match goal with |- context [getTag c ?ctr ad ?pt] =>
    destruct (getTag c ctr ad pt) as [T c']
  end.
  match goal with |- context [if ?b then _ else _] => destruct b end.
  - right. eexists. split; [reflexivity|discriminate].
  - left. eexists. reflexivity.
Qed.

(** What [Open] has gone through when it returns a slice. *)
Lemma Open_success_inv (c : ccm) (dst nonce ciphertext ad out : list byte) :
  wf c -> fst (Open c dst nonce ciphertext ad) = (Some out, None) ->
  len nonce = nonceSize c /\
  tagSize c < len ciphertext /\
  uint64 (len ciphertext - tagSize c) <= maxPayload (nonceSize c) /\
  slice_from ciphertext (len ciphertext - tagSize c)
  = expectedTag c nonce ad (slice_to ciphertext (len ciphertext - tagSize c)) /\
  out = dst ++ ctrCrypt c nonce (slice_to ciphertext (len ciphertext - tagSize c)).
Proof.
  intros Hwf Hok. pose proof Hwf as (Hbs & _ & _ & HN & HT & _).
  destruct (Z.eq_dec (len nonce) (nonceSize c)) as [Hn|Hn].
  2:{ rewrite Open_guard_nonce in Hok by assumption. discriminate. }
  destruct (Z_le_gt_dec (len ciphertext) (tagSize c)) as [Ht|Ht].
  { rewrite Open_guard_tag in Hok by assumption. discriminate. }
  destruct (Z_lt_le_dec (maxUnsignedVarInt (15 - nonceSize c))
              (uint64 (len ciphertext - tagSize c))) as [Hm|Hm].
  { rewrite Open_guard_payload in Hok by (assumption || lia). discriminate. }
  rewrite maxUnsignedVarInt_maxPayload in Hm by assumption.
  rewrite Open_spec in Hok by (assumption || lia). cbv zeta in Hok.
  fold (expectedTag c nonce ad (slice_to ciphertext (len ciphertext - tagSize c))) in Hok.
  destruct (bytes_Equal _ _) eqn:E; cbn [negb fst] in Hok; [|discriminate].
  apply bytes_Equal_eq in E. injection Hok as <-.
  repeat split; try lia; congruence.
Qed.

(** X14. What a successful [Open] has checked and what it returns: the nonce
    has N bytes, the input is longer than T bytes, its last T bytes are the
    expected tag of the bytes before them, and the slice returned is [dst]
    followed by the decryption of those bytes, [len(ciphertext) - T] of
    them. *)
Theorem Open_success_shape (c : ccm) (dst nonce ciphertext ad out : list byte) :
  wf c -> fst (Open c dst nonce ciphertext ad) = (Some out, None) ->
  len nonce = nonceSize c /\
  tagSize c < len ciphertext /\
  slice_from ciphertext (len ciphertext - tagSize c)
  = expectedTag c nonce ad (slice_to ciphertext (len ciphertext - tagSize c)) /\
  out = dst ++ ctrCrypt c nonce (slice_to ciphertext (len ciphertext - tagSize c)) /\
  len out = len dst + (len ciphertext - tagSize c).
Proof.
  intros Hwf Hok. pose proof Hwf as (Hbs & _ & _ & _ & HT & _).
  destruct (Open_success_inv c dst nonce ciphertext ad out Hwf Hok)
    as (Hn & Ht & _ & Htag & Hout).
  repeat split; try assumption.
  rewrite Hout, len_app. unfold len at 2.
  rewrite length_ctrCrypt, length_slice_to by (assumption || lia). lia.
Qed.

Lemma Open_success_shape_witness :
  [8; 1; 2; 3] = [8] ++ ctrCrypt (demoCCM 13 4) demoNonce
                          (slice_to [90; 88; 84; 3; 2; 7; 7]
                             (len [90; 88; 84; 3; 2; 7; 7] - tagSize (demoCCM 13 4))).
Proof.
  apply (Open_success_shape (demoCCM 13 4) [8] demoNonce [90; 88; 84; 3; 2; 7; 7]
           [7; 7] [8; 1; 2; 3] demoCCM_wf).
  by_evaluation.
Defined.

(** X16. The length prefix that [getTag] writes can be read back.  For every
    16-byte B0 and every length of associated data (a Go [int]), the prefix
    has 2, 6 or 10 bytes according to the two thresholds of the code,
    [1<<15 - 1<<7] and [1<<31 - 1], and a reader that follows the markers
    [0xFF 0xFE] and [0xFF 0xFF] recovers the length from it; so two
    different lengths never get the same prefix. *)
Theorem adLenPrefix_roundtrip
  (b0 b1 b2 b3 b4 b5 b6 b7 b8 b9 b10 b11 b12 b13 b14 b15 : byte) (n n' : Z) :
  0 <= n < 2 ^ 63 -> 0 <= n' < 2 ^ 63 ->
  let B0 := [b0; b1; b2; b3; b4; b5; b6; b7; b8; b9; b10; b11; b12; b13; b14; b15] in
  adLenDecode (adLenPrefix B0 n) = n /\
  len (adLenPrefix B0 n)
  = (if n <? 2 ^ 15 - 2 ^ 7 then 2 else if n <=? 2 ^ 31 - 1 then 6 else 10) /\
  (adLenPrefix B0 n = adLenPrefix B0 n' -> n = n').
Proof.
  intros Hn Hn' B0.
  assert (E15 : 2 ^ 15 - 2 ^ 7 = 32640) by reflexivity.
  assert (E31 : 2 ^ 31 - 1 = 2147483647) by reflexivity.
  assert (E32 : 2 ^ 32 = 4294967296) by reflexivity.
  assert (E63 : 2 ^ 63 = 9223372036854775808) by reflexivity.
  assert (E64 : 2 ^ 64 = 18446744073709551616) by reflexivity.
  assert (Dec : forall k, 0 <= k < 2 ^ 63 ->
            adLenDecode (adLenPrefix B0 k) = k /\
            len (adLenPrefix B0 k)
            = (if k <? 2 ^ 15 - 2 ^ 7 then 2 else if k <=? 2 ^ 31 - 1 then 6 else 10)).
  { intros k Hk.
    destruct (adLenPrefix_tiers b0 b1 b2 b3 b4 b5 b6 b7 b8 b9 b10 b11 b12 b13 b14 b15 k Hk)
      as (T1 & T2 & T3). fold B0 in T1, T2, T3.
    destruct (Z.ltb_spec k (2 ^ 15 - 2 ^ 7)) as [H1|H1].
    - rewrite (T1 H1). split; [|reflexivity].
      assert (Hd : be_decode (be_encode 2 k) = k)
        by (apply be_decode_encode; change (2 ^ (8 * Z.of_nat 2)) with 65536; lia).
      revert Hd. cbn [be_encode]. unfold adLenDecode.
      change (2 ^ (8 * Z.of_nat 1)) with 256.
      assert (Hhi : (k / 256) mod 256 <> 255).
      { assert (0 <= k / 256 < 128).
        { split; [apply Z.div_pos; lia|]. apply Z.div_lt_upper_bound; lia. }
        rewrite Z.mod_small; lia. }
      apply Z.eqb_neq in Hhi. rewrite Hhi. cbn [andb]. trivial.
    - destruct (Z.leb_spec k (2 ^ 31 - 1)) as [H2|H2].
      + rewrite (T2 (conj H1 H2)). split; [|reflexivity].
        change (adLenDecode (255 :: 254 :: be_encode 4 k)) with (be_decode (be_encode 4 k)).
        apply be_decode_encode. change (2 ^ (8 * Z.of_nat 4)) with (2 ^ 32). lia.
      + rewrite (T3 H2). split; [|reflexivity].
        change (adLenDecode (255 :: 255 :: be_encode 8 k)) with (be_decode (be_encode 8 k)).
        apply be_decode_encode. change (2 ^ (8 * Z.of_nat 8)) with (2 ^ 64). lia. }
  destruct (Dec n Hn) as [Dn Ln]. destruct (Dec n' Hn') as [Dn' _].
  split; [exact Dn|]. split; [exact Ln|].
  intro E. rewrite <- Dn, <- Dn', E. reflexivity.
Qed.

Lemma adLenPrefix_roundtrip_witness :
  adLenDecode (adLenPrefix (make 16) 40000) = 40000 /\
  len (adLenPrefix (make 16) 40000) = 6.
Proof.
  destruct (adLenPrefix_roundtrip 0 0 0 0 0 0 0 0 0 0 0 0 0 0 0 0 40000 7) as (D & L & _).
  - split; by_evaluation.
  - split; by_evaluation.
  - split; [exact D | exact L].
Defined.

(** * The MAC of a whole message *)

Lemma chunk_nil (fuel : nat) : chunk fuel [] = [].
Proof. now destruct fuel. Qed.

Lemma pad16_short (s : list byte) :
  0 < len s <= 16 -> pad16 s = s ++ make (16 - len s).
Proof.
  intro H. unfold pad16. do 2 f_equal.
  destruct (Z.eq_dec (len s) 16) as [->|Hne]; [reflexivity|].
  rewrite (Z.mod_small (len s)) by lia. apply Z.mod_small. lia.
Qed.

Lemma pad16_long (s : list byte) :
  16 < len s -> pad16 s = firstn 16 s ++ pad16 (skipn 16 s).
Proof.
  intro H.
  assert (E : len (skipn 16 s) mod 16 = len s mod 16).
  { unfold len in *. rewrite length_skipn.
    replace (Z.of_nat (length s - 16)) with (Z.of_nat (length s) - 16) by lia.
    Z.div_mod_to_equations. lia. }
  unfold pad16. rewrite E, app_assoc, firstn_skipn. reflexivity.
Qed.

Lemma chunk_cons (fuel : nat) (blk s : list byte) :
  length blk = 16%nat -> chunk (S fuel) (blk ++ s) = blk :: chunk fuel s.
Proof.
  intro H. destruct blk as [|y b]; [discriminate|].
  change (chunk (S fuel) ((y :: b) ++ s))
    with (firstn 16 ((y :: b) ++ s) :: chunk fuel (skipn 16 ((y :: b) ++ s))).
  rewrite <- H.
  rewrite firstn_app, firstn_all, skipn_app, skipn_all, Nat.sub_diag.
  cbn [firstn skipn app]. now rewrite app_nil_r.
Qed.

Lemma Write_message (fuel : nat) (msg : list byte) (m : cbcMac) :
  (length msg <= fuel)%nat -> len (ci m) = 16 -> p m = 0 ->
  PadZero (Write m msg)
  = {| ci := cbcChain (block m) (ci m) (chunk fuel (pad16 msg)); p := 0;
       block := block m |}.
Proof.
  revert msg m. induction fuel as [|fuel IH]; intros msg m Hfuel Hl Hp.
  - destruct msg; [|cbn in Hfuel; lia]. destruct m as [ci0 p0 b0]. cbn in *. now subst.
  - destruct (Z.eq_dec (len msg) 0) as [Hz|Hnz].
    { apply len_nil_iff in Hz. subst msg. destruct m as [ci0 p0 b0]. cbn in *. now subst. }
    pose proof (len_nonneg msg) as Hge.
    destruct (Z_le_gt_dec (len msg) 16) as [Hshort|Hlong].
    + assert (Hs : 0 < len msg <= 16) by lia.
      rewrite (Write_partial_block m msg Hl Hp Hs), pad16_short by assumption.
      f_equal.
      rewrite <- (app_nil_r (msg ++ make (16 - len msg))) at 2.
      rewrite chunk_cons, chunk_nil; [reflexivity|].
      rewrite length_app, length_make. unfold len in *. lia.
    + rewrite pad16_long by lia.
      assert (Hblk : length (firstn 16 msg) = 16%nat).
      { rewrite length_firstn. unfold len in *. lia. }
      rewrite chunk_cons by assumption.
      rewrite <- (firstn_skipn 16 msg) at 1.
      replace (firstn 16 msg ++ skipn 16 msg)
        with (concat [firstn 16 msg] ++ skipn 16 msg)
        by (cbn [concat]; now rewrite app_nil_r).
      rewrite Write_blocks_then; try assumption.
      * rewrite IH; cbn [ci p block]; try reflexivity.
        -- rewrite length_skipn. lia.
        -- unfold cbcChain. cbn [fold_left]. unfold cbcStep, len.
           rewrite length_Encrypt, length_xor_list.
           unfold len in Hl. lia.
      * repeat constructor. unfold len. lia.
Qed.

Lemma length_pad16_ge (s : list byte) : (length s <= length (pad16 s))%nat.
Proof. unfold pad16. rewrite (length_app s). lia. Qed.

(** X17. The MAC of a message is its CBC-MAC with zero padding: from a
    flushed accumulator, [Write] of any message followed by [Sum] returns the
    chain [E(acc XOR block)] over the 16-byte blocks of the message padded
    with zero bytes to a whole number of blocks; the empty message leaves
    the accumulator as it is. *)
Theorem Sum_is_CBC_MAC (m : cbcMac) (msg : list byte) :
  len (ci m) = 16 -> p m = 0 ->
  snd (Sum (Write m msg) []) = cbcChain (block m) (ci m) (blocks16 (pad16 msg)) /\
  snd (Sum (Write m []) []) = ci m.
Proof.
  intros Hl Hp. split.
  - rewrite (surjective_pairing (Sum (Write m msg) [])) at 1.
    change (snd (fst (Sum (Write m msg) []), snd (Sum (Write m msg) [])))
      with (ci (PadZero (Write m msg))).
    unfold blocks16. rewrite (Write_message (length (pad16 msg))); try assumption.
    + reflexivity.
    + apply length_pad16_ge.
  - unfold Sum, Write. cbn [fold_left]. rewrite Hp. reflexivity.
Qed.

Lemma Sum_is_CBC_MAC_witness :
  snd (Sum (Write (newCBCMACFromBlock demoBlock) (make 16 ++ [1; 2; 3])) [])
  = cbcChain demoBlock (make 16) [make 16; [1; 2; 3] ++ make 13].
Proof.
  apply (Sum_is_CBC_MAC (newCBCMACFromBlock demoBlock) (make 16 ++ [1; 2; 3]));
    reflexivity.
Defined.

Lemma ci_Reset (m : cbcMac) : ci (Reset m) = make (len (ci m)).
Proof.
  unfold Reset, make, len. cbn [ci]. rewrite Nat2Z.id.
  induction (ci m) as [|x s IH]; cbn; [reflexivity | now rewrite IH].
Qed.

(** X18. The tag block of CCM.  On a valid instance and a nonce of N bytes,
    the 16 bytes that [getTag] returns for the counter block of [Seal] and
    [Open] are the CBC-MAC, from the all-zero block, of two zero-padded
    messages one after the other: B0 (flag byte, nonce, plaintext length
    big-endian) followed by the length prefix and the associated data when
    there is some, and the plaintext. *)
Theorem getTag_is_CBC_MAC (c : ccm) (nonce ad plaintext : list byte) :
  wf c -> len nonce = nonceSize c ->
  let B0 := flagsB0 c ad :: nonce
            ++ be_encode (Z.to_nat (15 - nonceSize c)) (uint64 (len plaintext)) in
  fst (getTag c (Ctr1 c nonce) ad plaintext)
  = cbcChain (blockCipher c) (make 16)
      (blocks16 (pad16 (B0 ++ encodedAD B0 ad)) ++ blocks16 (pad16 plaintext)).
Proof.
  intros Hwf Hn B0. pose proof Hwf as (_ & Hblk & Hl & _).
  assert (Hctr : len (Ctr1 c nonce) = 16).
  { unfold Ctr1, Ctr0, set. unfold len.
    rewrite length_modify, length_through_from by (intro; apply length_copy).
    now rewrite length_modify. }
  rewrite (getTag_mac_input c (Ctr1 c nonce) ad plaintext Hl Hctr).
  rewrite (formatB0_Ctr1 c nonce ad plaintext Hwf Hn). fold B0.
  set (R := Reset (mac c)).
  assert (HR : len (ci R) = 16 /\ p R = 0 /\ block R = blockCipher c /\ ci R = make 16).
  { subst R. rewrite ci_Reset, Hl. repeat split; assumption. }
  destruct HR as (HRl & HRp & HRb & HRc).
  rewrite (Write_message (length (pad16 (B0 ++ encodedAD B0 ad))) _ R);
    [|apply length_pad16_ge | assumption | assumption].
  fold (blocks16 (pad16 (B0 ++ encodedAD B0 ad))). rewrite HRb, HRc.
  set (M1 := {| ci := _; p := 0; block := blockCipher c |}).
  assert (HM1 : len (ci M1) = 16).
  { pose proof (PadZero_inv (Write R (B0 ++ encodedAD B0 ad))) as Hi.
    rewrite (Write_message (length (pad16 (B0 ++ encodedAD B0 ad))) _ R) in Hi;
      [|apply length_pad16_ge | assumption | assumption].
    fold (blocks16 (pad16 (B0 ++ encodedAD B0 ad))) in Hi. rewrite HRb, HRc in Hi.
    apply Hi. apply Write_inv. split; lia. }
  rewrite (Write_message (length (pad16 plaintext)) plaintext M1);
    [|apply length_pad16_ge | assumption | reflexivity].
  fold (blocks16 (pad16 plaintext)). subst M1. cbn [ci block].
  unfold Sum. cbn [p Z.eqb negb snd ci app].
  unfold cbcChain. now rewrite fold_left_app.
Qed.

Lemma getTag_is_CBC_MAC_witness :
  fst (getTag (demoCCM 13 4) (Ctr1 (demoCCM 13 4) demoNonce) [7; 7] [1; 2; 3])
  = cbcChain demoBlock (make 16)
      [[73; 1; 2; 3; 4; 5; 6; 7; 8; 9; 10; 11; 12; 13; 0; 3];
       [0; 2; 7; 7] ++ make 12;
       [1; 2; 3] ++ make 13].
Proof.
  apply (getTag_is_CBC_MAC (demoCCM 13 4) demoNonce [7; 7] [1; 2; 3] demoCCM_wf).
  reflexivity.
Defined.

(** * Seal on shared storage *)

(** ** Loads and stores *)

Lemma length_loadAt (m : memory) (a n : nat) :
  (a + n <= length m)%nat -> length (loadAt m a n) = n.
Proof. intro H. unfold loadAt. rewrite length_firstn, length_skipn. lia. Qed.

Lemma length_load (m : memory) (s : slice) :
  inBounds m s -> length (load m s) = slen s.
Proof. intros [H1 H2]. apply length_loadAt. lia. Qed.

Lemma loadAt_zero (m : memory) (a : nat) : loadAt m a 0 = [].
Proof. reflexivity. Qed.

Lemma loadAt_app_mid (A x B : list byte) :
  loadAt (A ++ x ++ B) (length A) (length x) = x.
Proof.
  unfold loadAt. rewrite skipn_app, skipn_all, Nat.sub_diag. cbn [skipn app].
  rewrite firstn_app, firstn_all, Nat.sub_diag. cbn [firstn]. apply app_nil_r.
Qed.

Lemma storeAt_app_mid (A old B new : list byte) :
  length new = length old -> storeAt (A ++ old ++ B) (length A) new = A ++ new ++ B.
Proof.
  intro H. unfold storeAt.
  rewrite firstn_app, firstn_all, Nat.sub_diag. cbn [firstn]. rewrite app_nil_r.
  do 2 f_equal.
  rewrite skipn_app, skipn_all2 by lia.
  replace (length A + length new - length A)%nat with (length old) by lia.
  rewrite skipn_app, skipn_all, Nat.sub_diag. reflexivity.
Qed.

Lemma loadAt_app_l (A Z : list byte) (a n : nat) :
  (a + n <= length A)%nat -> loadAt (A ++ Z) a n = loadAt A a n.
Proof.
  intro H. unfold loadAt. rewrite skipn_app, firstn_app, length_skipn.
  replace (n - (length A - a))%nat with 0%nat by lia.
  cbn [firstn]. apply app_nil_r.
Qed.

Lemma loadAt_app_r (A Z : list byte) (a n : nat) :
  (length A <= a)%nat -> loadAt (A ++ Z) a n = loadAt Z (a - length A) n.
Proof.
  intro H. unfold loadAt. rewrite skipn_app, skipn_all2 by lia. reflexivity.
Qed.

(** A load that has no byte in the segment [Y] does not see what the
    segment holds. *)
Lemma loadAt_outside (A Y Y' B : list byte) (a n : nat) :
  length Y' = length Y ->
  (n = 0 \/ a + n <= length A \/ length A + length Y <= a)%nat ->
  loadAt (A ++ Y' ++ B) a n = loadAt (A ++ Y ++ B) a n.
Proof.
  intros HY [->|[H|H]].
  - reflexivity.
  - now rewrite !loadAt_app_l.
  - rewrite !(loadAt_app_r A) by lia.
    rewrite !loadAt_app_r by lia. now rewrite HY.
Qed.

Lemma anyOverlap_false (x y : slice) :
  anyOverlap x y = false <->
  (slen x = 0 \/ slen y = 0 \/ ptr y + slen y <= ptr x \/ ptr x + slen x <= ptr y)%nat.
Proof.
  unfold anyOverlap.
  destruct (Nat.ltb_spec 0 (slen x)); destruct (Nat.ltb_spec 0 (slen y));
    destruct (Nat.ltb_spec (ptr x) (ptr y + slen y));
    destruct (Nat.ltb_spec (ptr y) (ptr x + slen x)); cbn;
    split; intro; try discriminate; try reflexivity; lia.
Qed.

(** A memory cut at an address into what lies before, two segments and
    what lies after. *)
Lemma memory_segments (m : memory) (a n1 n2 : nat) :
  (a + n1 + n2 <= length m)%nat ->
  m = firstn a m ++ (loadAt m a n1 ++ loadAt m (a + n1) n2) ++ skipn (a + n1 + n2) m.
Proof.
  intro H. unfold loadAt.
  rewrite <- (firstn_skipn a m) at 1. f_equal.
  rewrite <- (firstn_skipn n1 (skipn a m)) at 1. rewrite <- app_assoc. f_equal.
  rewrite skipn_skipn.
  rewrite <- (firstn_skipn n2 (skipn (n1 + a) m)) at 1.
  rewrite skipn_skipn.
  replace (n1 + a)%nat with (a + n1)%nat by lia.
  replace (n2 + (a + n1))%nat with (a + n1 + n2)%nat by lia. reflexivity.
Qed.

(** ** The calls of [Seal] by where the result is stored *)

(** The memory around the result: [A], the [len(plaintext)] bytes that
    receive the ciphertext, the 16 bytes of [s0], and [B]. *)
Lemma seg_load_second (A Pz Sz B : list byte) (a lp : nat) :
  length A = a -> length Pz = lp ->
  loadAt (A ++ (Pz ++ Sz) ++ B) (a + lp) (length Sz) = Sz.
Proof.
  intros <- <-. rewrite <- length_app, <- !app_assoc, (app_assoc A Pz).
  apply loadAt_app_mid.
Qed.

Lemma seg_store_second (A Pz Sz B S' : list byte) (a lp : nat) :
  length A = a -> length Pz = lp -> length S' = length Sz ->
  storeAt (A ++ (Pz ++ Sz) ++ B) (a + lp) S' = A ++ (Pz ++ S') ++ B.
Proof.
  intros <- <- H. rewrite <- length_app, <- !app_assoc, !(app_assoc A Pz).
  now apply storeAt_app_mid.
Qed.

Lemma seg_load_both (A Y B : list byte) (a : nat) :
  length A = a -> loadAt (A ++ Y ++ B) a (length Y) = Y.
Proof. intros <-. apply loadAt_app_mid. Qed.

Lemma seg_store_both (A Y B Y' : list byte) (a : nat) :
  length A = a -> length Y' = length Y -> storeAt (A ++ Y ++ B) a Y' = A ++ Y' ++ B.
Proof. intros <- H. now apply storeAt_app_mid. Qed.

(** [Seal] past its guards, store by store, on a memory cut around the
    result.  What [getTag] reads is loaded from the memory as
    [XORKeyStream] left it. *)
Lemma SealAt_core (c : ccm) (m mm : memory) (ret dst nonce pt ad : slice)
      (A Pz Sz B : list byte) :
  wf c ->
  Z.of_nat (slen nonce) = nonceSize c ->
  uint64 (Z.of_nat (slen pt)) <= maxPayload (nonceSize c) ->
  sliceForAppendAt m dst (slen pt + 16) = (mm, ret) ->
  mm = A ++ (Pz ++ Sz) ++ B ->
  length A = (ptr ret + slen dst)%nat -> length Pz = slen pt -> length Sz = 16%nat ->
  inexactOverlap {| ptr := ptr ret + slen dst; slen := slen pt; scap := slen pt + 16 |} pt
  = false ->
  let nb := load mm nonce in
  let S0' := Encrypt (blockCipher c) Sz (Ctr0 c nb) in
  let P1 := load (A ++ (Pz ++ S0') ++ B) pt in
  let X := xor_list P1 (ctr_stream (blockCipher c) (Ctr1 c nb) (length P1)) in
  let m2 := A ++ (X ++ S0') ++ B in
  let r := getTag c (Ctr1 c nb) (load m2 ad) (load m2 pt) in
  length P1 = slen pt ->
  SealAt c m dst nonce pt ad
  = (AtSlice {| ptr := ptr ret; slen := slen pt + Z.to_nat (tagSize c); scap := scap ret |},
     A ++ (X ++ xor_list S0' (fst r)) ++ B, snd r).
Proof.
  intros Hwf Hn Hmax Hsfa Hmm HA HPz HSz Hov nb S0' P1 X m2 r HP1.
  pose proof Hwf as (Hbs & Hblk & Hl & HN & HT & He).
  unfold SealAt, NonceSize, Size.
  rewrite Hn, Z.eqb_refl. cbn [negb].
  rewrite maxUnsignedVarInt_maxPayload by assumption.
  destruct (Z.ltb_spec (maxPayload (nonceSize c)) (uint64 (Z.of_nat (slen pt)))); [lia|].
  rewrite Hl. change (Z.to_nat 16) with 16%nat. rewrite Hsfa.
  replace (slen pt + 16 - slen pt)%nat with 16%nat by lia.
  rewrite Hov. fold nb.
  assert (HS0 : length S0' = 16%nat) by (subst S0'; now rewrite length_Encrypt).
  rewrite Hmm.
  set (a := (ptr ret + slen dst)%nat) in *.
  assert (E1 : loadAt (A ++ (Pz ++ Sz) ++ B) (a + slen pt) 16 = Sz).
  { rewrite <- HSz. now apply seg_load_second. }
  rewrite E1. fold S0'.
  assert (E2 : storeAt (A ++ (Pz ++ Sz) ++ B) (a + slen pt) S0' = A ++ (Pz ++ S0') ++ B).
  { apply seg_store_second; lia. }
  rewrite E2. fold P1.
  assert (E3 : loadAt (A ++ (Pz ++ S0') ++ B) a (slen pt + 16) = Pz ++ S0').
  { replace (slen pt + 16)%nat with (length (Pz ++ S0')) by (rewrite length_app; lia).
    now apply seg_load_both. }
  rewrite E3.
  assert (HX : length X = slen pt).
  { subst X. rewrite length_xor_list, length_ctr_stream, Hbs by lia.
    change (Z.to_nat 16) with 16%nat. lia. }
  assert (E4 : XORKeyStream (blockCipher c) (set (Ctr0 c nb) 15 1) (Pz ++ S0') P1
               = X ++ S0').
  { unfold XORKeyStream. fold (Ctr1 c nb). fold X. apply copy_prefix. lia. }
  rewrite E4.
  assert (E5 : storeAt (A ++ (Pz ++ S0') ++ B) a (X ++ S0') = m2).
  { subst m2. apply seg_store_both; [assumption|]. rewrite !length_app. lia. }
  rewrite E5. fold (Ctr1 c nb). fold r.
  rewrite (surjective_pairing r).
  assert (E6 : loadAt m2 (a + slen pt) 16 = S0').
  { subst m2. rewrite <- HS0. now apply seg_load_second. }
  rewrite E6.
  assert (Hr : length (fst r) = 16%nat).
  { destruct (getTag_mac_inv c (Ctr1 c nb) (load m2 ad) (load m2 pt) Hl) as (Ht & _).
    unfold len in Ht. subst r. lia. }
  unfold xorBytes. rewrite copy_same_length by (rewrite length_xor_list; lia).
  assert (E7 : storeAt m2 (a + slen pt) (xor_list S0' (fst r))
               = A ++ (X ++ xor_list S0' (fst r)) ++ B).
  { subst m2. apply seg_store_second; try assumption. rewrite length_xor_list. lia. }
  rewrite E7. reflexivity.
Qed.

Lemma load_fresh (m Z : memory) (s : slice) :
  inBounds m s -> load (m ++ Z) s = load m s.
Proof. intros [H1 H2]. unfold load. apply loadAt_app_l. lia. Qed.

Lemma loadAt_prefix (A L B : list byte) (n : nat) :
  (n <= length L)%nat -> loadAt (A ++ L ++ B) (length A) n = firstn n L.
Proof.
  intro H. unfold loadAt. rewrite skipn_app, skipn_all, Nat.sub_diag. cbn [skipn app].
  rewrite firstn_app. replace (n - length L)%nat with 0%nat by lia.
  cbn [firstn]. apply app_nil_r.
Qed.

(** A cipher that writes a whole block leaves nothing of what [s0] held. *)
Lemma Encrypt_wholeBlock (b : Block) (dst ctr : list byte) :
  wholeBlock b -> BlockSize b = 16 -> length dst = 16%nat -> length ctr = 16%nat ->
  Encrypt b dst ctr = Encrypt b (make 16) ctr.
Proof.
  intros Hw Hb Hd Hc. unfold Encrypt.
  assert (Hx : length (cipher b (slice_to ctr (BlockSize b))) = 16%nat).
  { apply Hw. rewrite Hb. unfold slice_to. rewrite length_firstn.
    change (Z.to_nat 16) with 16%nat. lia. }
  rewrite (copy_same_length dst) by (now rewrite Hx, Hd).
  rewrite (copy_same_length (make 16)) by (now rewrite Hx).
  reflexivity.
Qed.

Lemma length_Ctr0 (c : ccm) (nonce : list byte) : length (Ctr0 c nonce) = 16%nat.
Proof.
  unfold Ctr0, set. rewrite length_through_from by (intro; apply length_copy).
  now rewrite length_modify.
Qed.

(** [dst] is too small: [sliceForAppend] allocates, and the inputs are read
    as the caller left them. *)
Lemma SealAt_fresh (c : ccm) (m : memory) (dst nonce pt ad : slice) :
  wf c -> inBounds m dst -> inBounds m nonce -> inBounds m pt -> inBounds m ad ->
  Z.of_nat (slen nonce) = nonceSize c ->
  uint64 (Z.of_nat (slen pt)) <= maxPayload (nonceSize c) ->
  (scap dst < slen dst + (slen pt + 16))%nat ->
  SealAt c m dst nonce pt ad
  = (AtSlice {| ptr := length m; slen := slen pt + Z.to_nat (tagSize c);
                scap := slen dst + (slen pt + 16) |},
     (m ++ load m dst)
     ++ (ctrCrypt c (load m nonce) (load m pt)
         ++ maskedMac c (load m nonce) (load m ad) (load m pt)) ++ [],
     snd (getTag c (Ctr1 c (load m nonce)) (load m ad) (load m pt))).
Proof.
  intros Hwf Hd Hno Hpt Had Hn Hmax Hroom.
  assert (Hsfa : sliceForAppendAt m dst (slen pt + 16)
                 = (m ++ load m dst ++ repeat 0 (slen pt + 16),
                    {| ptr := length m; slen := slen dst + (slen pt + 16);
                       scap := slen dst + (slen pt + 16) |})).
  { unfold sliceForAppendAt.
    destruct (Nat.leb_spec (slen dst + (slen pt + 16)) (scap dst)); [lia|reflexivity]. }
  assert (Hmm : m ++ load m dst ++ repeat 0 (slen pt + 16)
                = (m ++ load m dst) ++ (repeat 0 (slen pt) ++ repeat 0 16) ++ []).
  { now rewrite repeat_app, app_nil_r, <- app_assoc. }
  assert (Hout : forall Y s, inBounds m s ->
                   load ((m ++ load m dst) ++ Y ++ []) s = load m s).
  { intros Y s Hs. rewrite <- app_assoc. now apply load_fresh. }
  rewrite (SealAt_core c m _ _ dst nonce pt ad (m ++ load m dst)
             (repeat 0 (slen pt)) (repeat 0 16) [] Hwf Hn Hmax Hsfa Hmm);
    cbn [ptr slen scap].
  - rewrite Hmm, !Hout by assumption.
    rewrite (length_load m pt Hpt).
    fold (ctrCrypt c (load m nonce) (load m pt)).
    rewrite <- (length_load m pt Hpt). reflexivity.
  - rewrite length_app, (length_load m dst Hd). reflexivity.
  - apply repeat_length.
  - apply repeat_length.
  - unfold inexactOverlap.
    replace (anyOverlap _ pt) with false; [reflexivity|].
    symmetry. apply anyOverlap_false. cbn [ptr slen]. destruct Hpt. lia.
  - rewrite Hout by assumption. now apply length_load.
Qed.

Lemma sliceForAppendAt_reuse (m : memory) (dst : slice) (n : nat) :
  (slen dst + n <= scap dst)%nat ->
  sliceForAppendAt m dst n
  = (m, {| ptr := ptr dst; slen := slen dst + n; scap := scap dst |}).
Proof.
  intro H. unfold sliceForAppendAt.
  destruct (Nat.leb_spec (slen dst + n) (scap dst)); [reflexivity|lia].
Qed.

(** A slice with no byte in the result storage is read the same before
    and after the stores. *)
Lemma load_apart (A Y Y' B : list byte) (R s : slice) :
  length Y' = length Y -> ptr R = length A -> slen R = length Y ->
  (0 < slen R)%nat -> anyOverlap R s = false ->
  load (A ++ Y' ++ B) s = load (A ++ Y ++ B) s.
Proof.
  intros HY HR HL Hpos Hov. unfold load. apply loadAt_outside; [assumption|].
  apply anyOverlap_false in Hov. lia.
Qed.

(** [dst] has room, and its spare capacity is apart from the plaintext and
    the associated data. *)
Lemma SealAt_reuse (c : ccm) (m : memory) (dst nonce pt ad : slice) :
  wf c -> wholeBlock (blockCipher c) ->
  inBounds m dst -> inBounds m nonce -> inBounds m pt -> inBounds m ad ->
  Z.of_nat (slen nonce) = nonceSize c ->
  uint64 (Z.of_nat (slen pt)) <= maxPayload (nonceSize c) ->
  (slen dst + (slen pt + 16) <= scap dst)%nat ->
  anyOverlap (resultStorage dst pt) pt = false ->
  anyOverlap (resultStorage dst pt) ad = false ->
  SealAt c m dst nonce pt ad
  = (AtSlice {| ptr := ptr dst; slen := slen pt + Z.to_nat (tagSize c);
                scap := scap dst |},
     firstn (ptr dst + slen dst) m
     ++ (ctrCrypt c (load m nonce) (load m pt)
         ++ maskedMac c (load m nonce) (load m ad) (load m pt))
     ++ skipn (ptr dst + slen dst + slen pt + 16) m,
     snd (getTag c (Ctr1 c (load m nonce)) (load m ad) (load m pt))).
Proof.
  intros Hwf Hw Hd Hno Hpt Had Hn Hmax Hroom Hop Hoa.
  pose proof Hwf as (Hbs & _).
  destruct Hd as [Hd1 Hd2].
  set (a := (ptr dst + slen dst)%nat).
  assert (Ha : a = (ptr dst + slen dst)%nat) by reflexivity.
  set (A := firstn a m). set (B := skipn (a + slen pt + 16) m).
  set (Pz := loadAt m a (slen pt)). set (Sz := loadAt m (a + slen pt) 16).
  assert (Hmm : m = A ++ (Pz ++ Sz) ++ B) by (apply memory_segments; lia).
  assert (HA : length A = a) by (subst A; rewrite length_firstn; lia).
  assert (HPz : length Pz = slen pt) by (apply length_loadAt; lia).
  assert (HSz : length Sz = 16%nat) by (apply length_loadAt; lia).
  assert (Hout : forall Y s, length Y = (slen pt + 16)%nat ->
                   anyOverlap (resultStorage dst pt) s = false ->
                   load (A ++ Y ++ B) s = load m s).
  { intros Y s HY Hs.
    transitivity (load (A ++ (Pz ++ Sz) ++ B) s); [|now rewrite <- Hmm].
    apply (load_apart A (Pz ++ Sz) Y B (resultStorage dst pt)); trivial;
      rewrite ?length_app; cbn [resultStorage ptr slen]; lia. }
  assert (HS0 : Encrypt (blockCipher c) Sz (Ctr0 c (load m nonce)) = S0 c (load m nonce)).
  { unfold S0. apply Encrypt_wholeBlock; trivial. apply length_Ctr0. }
  rewrite (SealAt_core c m m _ dst nonce pt ad A Pz Sz B Hwf Hn Hmax
             (sliceForAppendAt_reuse m dst _ Hroom) Hmm); cbn [ptr slen scap]; fold a.
  - rewrite HS0.
    rewrite !Hout by (trivial; rewrite length_app, ?length_S0, ?length_xor_list,
                        ?length_ctr_stream, ?Hbs, ?length_S0 by lia;
                      change (Z.to_nat 16) with 16%nat;
                      rewrite ?(length_load m pt Hpt); lia).
    fold (ctrCrypt c (load m nonce) (load m pt)).
    reflexivity.
  - exact HA.
  - exact HPz.
  - exact HSz.
  - unfold inexactOverlap.
    replace (anyOverlap _ pt) with false; [reflexivity|].
    symmetry. apply anyOverlap_false. apply anyOverlap_false in Hop.
    cbn [resultStorage ptr slen] in *. fold a in Hop. lia.
  - rewrite HS0, Hout; trivial; [now apply length_load|].
    rewrite length_app, length_S0. lia.
Qed.

(** [dst] is [plaintext[:0]]: the ciphertext is stored over the plaintext,
    and [getTag] reads the ciphertext. *)
Lemma SealAt_in_place (c : ccm) (m : memory) (nonce pt ad : slice) :
  wf c -> wholeBlock (blockCipher c) ->
  inBounds m nonce -> inBounds m pt -> inBounds m ad ->
  Z.of_nat (slen nonce) = nonceSize c ->
  uint64 (Z.of_nat (slen pt)) <= maxPayload (nonceSize c) ->
  (slen pt + 16 <= scap pt)%nat ->
  anyOverlap (resultStorage (emptied pt) pt) ad = false ->
  SealAt c m (emptied pt) nonce pt ad
  = (AtSlice {| ptr := ptr pt; slen := slen pt + Z.to_nat (tagSize c);
                scap := scap pt |},
     firstn (ptr pt) m
     ++ (ctrCrypt c (load m nonce) (load m pt)
         ++ maskedMac c (load m nonce) (load m ad)
              (ctrCrypt c (load m nonce) (load m pt)))
     ++ skipn (ptr pt + slen pt + 16) m,
     snd (getTag c (Ctr1 c (load m nonce)) (load m ad)
            (ctrCrypt c (load m nonce) (load m pt)))).
Proof.
  intros Hwf Hw Hno Hpt Had Hn Hmax Hroom Hoa.
  pose proof Hwf as (Hbs & _).
  pose proof Hpt as [Hp1 Hp2].
  set (a := ptr pt).
  set (A := firstn a m). set (B := skipn (a + slen pt + 16) m).
  set (Pz := loadAt m a (slen pt)). set (Sz := loadAt m (a + slen pt) 16).
  assert (Hmm : m = A ++ (Pz ++ Sz) ++ B) by (apply memory_segments; subst a; lia).
  assert (HA : length A = a) by (subst A a; rewrite length_firstn; lia).
  assert (HPz : length Pz = slen pt) by (apply length_loadAt; subst a; lia).
  assert (HSz : length Sz = 16%nat) by (apply length_loadAt; subst a; lia).
  assert (Hin : forall P S, length P = slen pt -> load (A ++ (P ++ S) ++ B) pt = P).
  { intros P S HP. unfold load. fold a. rewrite <- HA, <- HP.
    rewrite loadAt_prefix by (rewrite length_app; lia).
    rewrite firstn_app, firstn_all, Nat.sub_diag. cbn [firstn]. apply app_nil_r. }
  assert (Hout : forall Y s, length Y = (slen pt + 16)%nat ->
                   anyOverlap (resultStorage (emptied pt) pt) s = false ->
                   load (A ++ Y ++ B) s = load m s).
  { intros Y s HY Hs.
    transitivity (load (A ++ (Pz ++ Sz) ++ B) s); [|now rewrite <- Hmm].
    apply (load_apart A (Pz ++ Sz) Y B (resultStorage (emptied pt) pt)); trivial;
      rewrite ?length_app; cbn [resultStorage emptied ptr slen]; subst a; lia. }
  assert (HS0 : Encrypt (blockCipher c) Sz (Ctr0 c (load m nonce)) = S0 c (load m nonce)).
  { unfold S0. apply Encrypt_wholeBlock; trivial. apply length_Ctr0. }
  assert (Hsfa : sliceForAppendAt m (emptied pt) (slen pt + 16)
                 = (m, {| ptr := ptr pt; slen := 0 + (slen pt + 16); scap := scap pt |})).
  { apply (sliceForAppendAt_reuse m (emptied pt)). cbn [emptied slen scap]. lia. }
  assert (HP : Pz = load m pt) by reflexivity.
  rewrite (SealAt_core c m m _ (emptied pt) nonce pt ad A Pz Sz B Hwf Hn Hmax Hsfa Hmm);
    cbn [ptr slen scap emptied]; rewrite ?Nat.add_0_r; fold a.
  - rewrite HS0, (Hin Pz) by assumption. rewrite <- HP.
    fold (ctrCrypt c (load m nonce) Pz).
    assert (HX : length (ctrCrypt c (load m nonce) Pz) = slen pt)
      by (rewrite length_ctrCrypt; assumption).
    rewrite (Hin _ _ HX).
    rewrite Hout by (trivial; rewrite length_app, length_S0; lia).
    reflexivity.
  - exact HA.
  - exact HPz.
  - exact HSz.
  - unfold inexactOverlap. cbn [ptr]. subst a. rewrite Nat.eqb_refl. cbn [negb].
    apply andb_false_r.
  - rewrite HS0, (Hin Pz); assumption.
Qed.

Lemma loadAt_app_at (A L : list byte) (a n : nat) :
  length A = a -> loadAt (A ++ L) a n = firstn n L.
Proof.
  intros <-. unfold loadAt. now rewrite skipn_app, skipn_all, Nat.sub_diag.
Qed.

Lemma firstn_plus (m : list byte) (a n : nat) :
  firstn (a + n) m = firstn a m ++ loadAt m a n.
Proof.
  unfold loadAt. revert m. induction a as [|a IH]; intro m; [reflexivity|].
  destruct m as [|x m]; [now rewrite !firstn_nil|].
  cbn [Nat.add firstn skipn app]. now rewrite IH.
Qed.

Lemma firstn_app_short (L B : list byte) (k : nat) :
  (k <= length L)%nat -> firstn k (L ++ B) = firstn k L.
Proof.
  intro H. rewrite firstn_app. replace (k - length L)%nat with 0%nat by lia.
  cbn [firstn]. apply app_nil_r.
Qed.

Lemma len_load (m : memory) (s : slice) :
  inBounds m s -> len (load m s) = Z.of_nat (slen s).
Proof. intro H. unfold len. now rewrite length_load. Qed.

(** The two guards of [Seal] read lengths only. *)
Lemma SealAt_guarded (c : ccm) (m : memory) (dst nonce pt ad : slice) :
  wf c -> inBounds m nonce -> inBounds m pt ->
  (Z.of_nat (slen nonce) = nonceSize c ->
   uint64 (Z.of_nat (slen pt)) <= maxPayload (nonceSize c) ->
   returned (SealAt c m dst nonce pt ad)
   = fst (Seal c (load m dst) (load m nonce) (load m pt) (load m ad)) /\
   snd (SealAt c m dst nonce pt ad)
   = snd (Seal c (load m dst) (load m nonce) (load m pt) (load m ad))) ->
  returned (SealAt c m dst nonce pt ad)
  = fst (Seal c (load m dst) (load m nonce) (load m pt) (load m ad)) /\
  snd (SealAt c m dst nonce pt ad)
  = snd (Seal c (load m dst) (load m nonce) (load m pt) (load m ad)).
Proof.
  intros Hwf Hno Hpt Hrest. pose proof Hwf as (_ & _ & _ & HN & _).
  destruct (Z.eq_dec (Z.of_nat (slen nonce)) (nonceSize c)) as [Hn|Hn].
  - destruct (Z_le_gt_dec (uint64 (Z.of_nat (slen pt))) (maxPayload (nonceSize c)))
      as [Hmax|Hmax]; [now apply Hrest|].
    unfold SealAt, Seal, NonceSize.
    rewrite !len_load by assumption.
    rewrite Hn, Z.eqb_refl. cbn [negb].
    rewrite maxUnsignedVarInt_maxPayload by assumption.
    destruct (Z.ltb_spec (maxPayload (nonceSize c)) (uint64 (Z.of_nat (slen pt))));
      [split; reflexivity | lia].
  - unfold SealAt, Seal, NonceSize.
    rewrite !len_load by assumption.
    destruct (Z.eqb_spec (Z.of_nat (slen nonce)) (nonceSize c)); [contradiction|].
    split; reflexivity.
Qed.

(** When the result storage is shared with none of the inputs, [Seal] on
    the memory returns what [Seal] on the bytes returns. *)
Lemma SealAt_fresh_Seal (c : ccm) (m : memory) (dst nonce pt ad : slice) :
  wf c -> inBounds m dst -> inBounds m nonce -> inBounds m pt -> inBounds m ad ->
  (scap dst < slen dst + (slen pt + 16))%nat ->
  returned (SealAt c m dst nonce pt ad)
  = fst (Seal c (load m dst) (load m nonce) (load m pt) (load m ad)) /\
  snd (SealAt c m dst nonce pt ad)
  = snd (Seal c (load m dst) (load m nonce) (load m pt) (load m ad)).
Proof.
  intros Hwf Hd Hno Hpt Had Hroom.
  apply SealAt_guarded; trivial. intros Hn Hmax.
  pose proof Hwf as (Hbs & _ & Hl & _ & HT & _).
  rewrite SealAt_fresh by assumption.
  rewrite Seal_spec by (rewrite ?len_load by assumption; assumption).
  cbn [returned fst snd]. split; [|reflexivity]. f_equal.
  unfold load at 1. cbn [ptr slen].
  rewrite app_nil_r, <- app_assoc, loadAt_app_at by reflexivity.
  unfold slice_to. f_equal. rewrite len_load by assumption. lia.
Qed.

Lemma SealAt_reuse_Seal (c : ccm) (m : memory) (dst nonce pt ad : slice) :
  wf c -> wholeBlock (blockCipher c) ->
  inBounds m dst -> inBounds m nonce -> inBounds m pt -> inBounds m ad ->
  (slen dst + (slen pt + 16) <= scap dst)%nat ->
  anyOverlap (resultStorage dst pt) pt = false ->
  anyOverlap (resultStorage dst pt) ad = false ->
  returned (SealAt c m dst nonce pt ad)
  = fst (Seal c (load m dst) (load m nonce) (load m pt) (load m ad)) /\
  snd (SealAt c m dst nonce pt ad)
  = snd (Seal c (load m dst) (load m nonce) (load m pt) (load m ad)).
Proof.
  intros Hwf Hw Hd Hno Hpt Had Hroom Hop Hoa.
  apply SealAt_guarded; trivial. intros Hn Hmax.
  pose proof Hwf as (Hbs & _ & Hl & _ & HT & _).
  pose proof Hd as [Hd1 Hd2].
  rewrite SealAt_reuse by assumption.
  rewrite Seal_spec by (rewrite ?len_load by assumption; assumption).
  cbn [returned fst snd]. split; [|reflexivity]. f_equal.
  unfold load at 1. cbn [ptr slen].
  rewrite firstn_plus, <- app_assoc.
  rewrite loadAt_app_at by (rewrite length_firstn; lia).
  fold (load m dst).
  rewrite (app_assoc (load m dst)), firstn_app_short.
  - unfold slice_to. f_equal.
    rewrite len_load by assumption. lia.
  - rewrite !length_app, length_load, length_ctrCrypt, length_load,
      length_maskedMac by assumption. lia.
Qed.

Lemma inBounds_nilSlice (m : memory) : inBounds m nilSlice.
Proof. split; cbn; lia. Qed.

(** With a [nil] dst the result is always stored in a new array. *)
Lemma SealAt_nil_Seal (c : ccm) (m : memory) (nonce pt ad : slice) :
  wf c -> inBounds m nonce -> inBounds m pt -> inBounds m ad ->
  returned (SealAt c m nilSlice nonce pt ad)
  = fst (Seal c [] (load m nonce) (load m pt) (load m ad)).
Proof.
  intros Hwf Hno Hpt Had.
  apply (SealAt_fresh_Seal c m nilSlice nonce pt ad); trivial.
  - apply inBounds_nilSlice.
  - cbn. lia.
Qed.

Lemma demoBlock_wholeBlock : wholeBlock demoBlock.
Proof.
  intros x Hx. cbn [demoBlock cipher]. now rewrite length_map, length_rev.
Qed.

Lemma payload_fits (c : ccm) (k : nat) :
  wf c -> Z.of_nat k <= maxPayload (nonceSize c) ->
  uint64 (Z.of_nat k) <= maxPayload (nonceSize c).
Proof.
  intros (_ & _ & _ & HN & _) Hk.
  pose proof (maxPayload_bounds _ HN). rewrite uint64_small; lia.
Qed.

(** The flag byte that [formatB0] leaves in a counter block of [Seal] and
    [Open]. *)
Lemma flagsB0_value (c : ccm) (data : list byte) :
  wf c ->
  flagsB0 c data
  = (14 - nonceSize c) + 8 * ((tagSize c - 2) / 2) + (if 0 <? len data then 64 else 0) /\
  0 <= flagsB0 c data < 128 /\
  flagsB0 c data mod 8 = 14 - nonceSize c /\
  (flagsB0 c data / 8) mod 8 = (tagSize c - 2) / 2 /\
  Z.testbit (flagsB0 c data) 6 = (0 <? len data).
Proof.
  intros (_ & _ & _ & HN & HT & He).
  unfold flagsB0. destruct c as [b m N T]. cbn [nonceSize tagSize] in *.
  assert (CN : N = 7 \/ N = 8 \/ N = 9 \/ N = 10 \/ N = 11 \/ N = 12 \/ N = 13) by lia.
  assert (CT : T = 4 \/ T = 6 \/ T = 8 \/ T = 10 \/ T = 12 \/ T = 14 \/ T = 16).
  { assert (C : T = 4 \/ T = 5 \/ T = 6 \/ T = 7 \/ T = 8 \/ T = 9 \/ T = 10 \/
                T = 11 \/ T = 12 \/ T = 13 \/ T = 14 \/ T = 15 \/ T = 16) by lia.
    repeat (destruct C as [C|C]; [subst T; try discriminate He; tauto|]).
    subst T. tauto. }
  clear HN HT He.
  destruct CN as [->|[->|[->|[->|[->|[->| ->]]]]]];
    destruct CT as [->|[->|[->|[->|[->|[->| ->]]]]]];
    destruct (0 <? len data); vm_compute; repeat split; congruence.
Qed.

(** ** What [Seal] returns, by where the result is stored *)

(** C5 at an in-place call.  The plaintext is the first 16 bytes of a
    32-byte array and [dst] is [plaintext[:0]], so [Seal] stores the result
    over the plaintext.  B0 is as the claim has it, from Ctr1 as from Ctr0:
    the flag byte, the nonce, and the plaintext length 16 in the last two
    bytes.  But the bytes that reach the accumulator after the associated
    data are not the plaintext: [XORKeyStream] has overwritten it when
    [getTag] reads it.  [Seal] returns the tag of the ciphertext, 91 86 81
    83, where the tag of the plaintext, which the same call returns with a
    [nil] dst, is 0 13 9 10; [Open] accepts the latter and rejects what was
    sealed in place. *)
Theorem Seal_in_place_macs_ciphertext :
  load demoMemory demoTextAt = demoText /\
  load demoMemory demoNonceAt = demoNonce /\
  load demoMemory demoADAt = [7; 7] /\
  formatB0 (demoCCM 13 4) (Ctr1 (demoCCM 13 4) demoNonce) [7; 7] demoText
  = [73; 1; 2; 3; 4; 5; 6; 7; 8; 9; 10; 11; 12; 13; 0; 16] /\
  formatB0 (demoCCM 13 4) (Ctr0 (demoCCM 13 4) demoNonce) [7; 7] demoText
  = [73; 1; 2; 3; 4; 5; 6; 7; 8; 9; 10; 11; 12; 13; 0; 16] /\
  ctrCrypt (demoCCM 13 4) demoNonce demoText
  = [90; 88; 84; 82; 84; 86; 84; 90; 84; 86; 84; 82; 84; 86; 84; 75] /\
  slice_to (maskedMac (demoCCM 13 4) demoNonce [7; 7] demoText) 4 = [0; 13; 9; 10] /\
  slice_to (maskedMac (demoCCM 13 4) demoNonce [7; 7]
              (ctrCrypt (demoCCM 13 4) demoNonce demoText)) 4 = [91; 86; 81; 83] /\
  returned (SealAt (demoCCM 13 4) demoMemory nilSlice demoNonceAt demoTextAt demoADAt)
  = SealBytes (ctrCrypt (demoCCM 13 4) demoNonce demoText ++ [0; 13; 9; 10]) /\
  returned (SealAt (demoCCM 13 4) demoMemory (emptied demoTextAt)
              demoNonceAt demoTextAt demoADAt)
  = SealBytes (ctrCrypt (demoCCM 13 4) demoNonce demoText ++ [91; 86; 81; 83]) /\
  fst (Open (demoCCM 13 4) [] demoNonce
         (ctrCrypt (demoCCM 13 4) demoNonce demoText ++ [0; 13; 9; 10]) [7; 7])
  = (Some demoText, None) /\
  fst (Open (demoCCM 13 4) [] demoNonce
         (ctrCrypt (demoCCM 13 4) demoNonce demoText ++ [91; 86; 81; 83]) [7; 7])
  = (None, Some ErrAuthenticationFailed).
Proof. repeat split; vm_compute; reflexivity. Qed.



(** X10. When the result is stored apart from the plaintext and the
    associated data ([Seal] allocates it, or the spare capacity of [dst] has
    no byte in common with them), [Seal] returns [dst] followed by what it
    returns for a [nil] dst, cut to the length of the latter: the slice has
    [len(plaintext) + T] bytes, and when [dst] is not empty it is not [dst]
    followed by the whole ciphertext and tag. *)
Theorem Seal_cuts_to_payload_and_tag
  (c : ccm) (m : memory) (dst nonce plaintext ad : slice) :
  wf c -> wholeBlock (blockCipher c) ->
  inBounds m dst -> inBounds m nonce -> inBounds m plaintext -> inBounds m ad ->
  apart dst plaintext ad ->
  Z.of_nat (slen nonce) = nonceSize c ->
  Z.of_nat (slen plaintext) <= maxPayload (nonceSize c) ->
  exists sealedNil out,
    returned (SealAt c m nilSlice nonce plaintext ad) = SealBytes sealedNil /\
    returned (SealAt c m dst nonce plaintext ad) = SealBytes out /\
    out = slice_to (load m dst ++ sealedNil) (len sealedNil) /\
    len out = Z.of_nat (slen plaintext) + tagSize c /\
    ((0 < slen dst)%nat -> out <> load m dst ++ sealedNil).
Proof.
  intros Hwf Hw Hd Hno Hpt Had Hap Hn Hmax.
  pose proof Hwf as (Hbs & _ & Hl & HN & HT & _).
  pose proof (payload_fits c _ Hwf Hmax) as Hu.
  set (D := load m dst). set (nb := load m nonce).
  set (P := load m plaintext). set (A := load m ad).
  assert (HnL : len nb = nonceSize c) by (subst nb; now rewrite len_load).
  assert (HpL : len P = Z.of_nat (slen plaintext)) by (subst P; now rewrite len_load).
  assert (HuL : uint64 (len P) <= maxPayload (nonceSize c)) by now rewrite HpL.
  assert (Eat : returned (SealAt c m dst nonce plaintext ad) = fst (Seal c D nb P A)).
  { destruct (Nat.lt_ge_cases (scap dst) (slen dst + (slen plaintext + 16))) as [Hf|Hr].
    - now apply SealAt_fresh_Seal.
    - destruct Hap as [Hf|[Hop Hoa]]; [lia|]. now apply SealAt_reuse_Seal. }
  pose proof (Seal_nil_dst c nb P A Hwf HnL HuL) as Enil.
  assert (HX : len (ctrCrypt c nb P) = len P)
    by (unfold len; now rewrite length_ctrCrypt).
  assert (HY : len (slice_to (maskedMac c nb A P) (tagSize c)) = tagSize c).
  { unfold len. rewrite length_slice_to; [lia|].
    unfold len. rewrite length_maskedMac by assumption. lia. }
  destruct (Seal_output c D nb P A Hwf HnL HuL) as (out & mc & E & _ & Hout & Ho).
  set (sealedNil := ctrCrypt c nb P ++ slice_to (maskedMac c nb A P) (tagSize c)) in *.
  assert (Hs : len sealedNil = len P + tagSize c)
    by (subst sealedNil; rewrite len_app; lia).
  exists sealedNil, out.
  split; [rewrite SealAt_nil_Seal by assumption; exact Enil|].
  split; [rewrite Eat; now rewrite E|].
  split; [|split; [now rewrite Ho, HpL|]].
  - rewrite Hout, Hs. subst sealedNil. unfold slice_to.
    rewrite !app_assoc. symmetry. apply firstn_app_firstn.
    rewrite length_app, length_ctrCrypt by assumption. unfold len. lia.
  - intros Hne Heq. apply (f_equal len) in Heq. rewrite len_app, Ho, Hs in Heq.
    subst D. rewrite len_load in Heq by assumption. lia.
Qed.

Lemma Seal_cuts_to_payload_and_tag_witness :
  exists sealedNil out,
    returned (SealAt (demoCCM 13 4) demoMemory nilSlice demoNonceAt
                {| ptr := 0; slen := 3; scap := 3 |} demoADAt) = SealBytes sealedNil /\
    returned (SealAt (demoCCM 13 4) demoMemory {| ptr := 10; slen := 2; scap := 22 |}
                demoNonceAt {| ptr := 0; slen := 3; scap := 3 |} demoADAt)
    = SealBytes out /\
    len out = 7 /\ out <> [11; 12] ++ sealedNil.
Proof.
  destruct (Seal_cuts_to_payload_and_tag (demoCCM 13 4) demoMemory
              {| ptr := 10; slen := 2; scap := 22 |} demoNonceAt
              {| ptr := 0; slen := 3; scap := 3 |} demoADAt demoCCM_wf
              demoBlock_wholeBlock)
    as (sealedNil & out & E1 & E2 & _ & Hl & Hne).
  - split; vm_compute; lia.
  - split; vm_compute; lia.
  - split; vm_compute; lia.
  - split; vm_compute; lia.
  - right. split; reflexivity.
  - reflexivity.
  - by_evaluation.
  - exists sealedNil, out. repeat split; try assumption. apply Hne. cbn. lia.
Defined.

(** X11. What one party seals, its peer opens.  Sender and receiver are
    instances built by [NewCCM] from the same cipher and sizes, each with
    its own history of calls; what the sender's [Seal] returns for a [nil]
    dst and a non-empty plaintext within [maxPayload(N)], the receiver's
    [Open] accepts, and it returns its own [dst] followed by the plaintext. *)
Theorem sealed_opens_on_peer
  (b : Block) (N T : Z) (c : ccm) (sent received : list call)
  (m : memory) (nonce plaintext ad : slice) (dst : list byte) :
  NewCCM b N T = (Some c, None) ->
  inBounds m nonce -> inBounds m plaintext -> inBounds m ad ->
  Z.of_nat (slen nonce) = N -> (0 < slen plaintext)%nat ->
  Z.of_nat (slen plaintext) <= maxPayload N ->
  exists out,
    returned (SealAt (after c sent) m nilSlice nonce plaintext ad) = SealBytes out /\
    fst (Open (after c received) dst (load m nonce) out (load m ad))
    = (Some (dst ++ load m plaintext), None).
Proof.
  intros Hnew Hno Hpt Had Hn Hne Hmax.
  destruct (instance_stays_valid_parts b N T c sent Hnew) as (Hwf1 & Ha1 & HN1).
  destruct (instance_stays_valid_parts b N T c received Hnew) as (Hwf2 & Ha2 & HN2).
  destruct Ha1 as (B1 & N1 & T1). destruct Ha2 as (B2 & N2 & T2).
  set (sender := after c sent) in *. set (receiver := after c received) in *.
  assert (HnL : len (load m nonce) = nonceSize sender)
    by (rewrite len_load by assumption; congruence).
  assert (HpL : len (load m plaintext) = Z.of_nat (slen plaintext))
    by now rewrite len_load.
  assert (Hmax1 : Z.of_nat (slen plaintext) <= maxPayload (nonceSize sender))
    by (rewrite N1, HN1; exact Hmax).
  eexists. split.
  - rewrite SealAt_nil_Seal by assumption.
    apply Seal_nil_dst; try assumption. rewrite HpL. now apply payload_fits.
  - apply Open_accepts; try assumption; try congruence. lia.
Qed.

Lemma sealed_opens_on_peer_witness :
  exists out,
    returned (SealAt (after (demoCCM 13 4) [CallSeal [] demoNonce [5; 5] []])
                demoMemory nilSlice demoNonceAt demoTextAt demoADAt) = SealBytes out /\
    fst (Open (after (demoCCM 13 4) [CallOpen [] demoNonce (make 30) [1]])
           [8; 9] (load demoMemory demoNonceAt) out (load demoMemory demoADAt))
    = (Some ([8; 9] ++ load demoMemory demoTextAt), None).
Proof.
  apply (sealed_opens_on_peer demoBlock 13 4 (demoCCM 13 4)
           [CallSeal [] demoNonce [5; 5] []] [CallOpen [] demoNonce (make 30) [1]]
           demoMemory demoNonceAt demoTextAt demoADAt [8; 9]).
  - reflexivity.
  - split; vm_compute; lia.
  - split; vm_compute; lia.
  - split; vm_compute; lia.
  - reflexivity.
  - cbn. lia.
  - by_evaluation.
Defined.

(** X15. The first MAC block.  On a valid instance and a nonce of N bytes,
    the block B0 that [getTag] makes of the counter block [Seal] and [Open]
    hand it starts with the flag byte [(14-N) + 8*((T-2)/2) + 64*Adata]:
    [q - 1 = 14 - N] in bits 0 to 2, [(T - 2) / 2] in bits 3 to 5, the Adata
    bit 6 set exactly when there is associated data, bit 7 clear; the nonce
    follows in bytes 1 to N. *)
Theorem formatB0_fields (c : ccm) (nonce ad plaintext : list byte) :
  wf c -> len nonce = nonceSize c ->
  exists flags rest,
    formatB0 c (Ctr1 c nonce) ad plaintext = flags :: nonce ++ rest /\
    len rest = 15 - nonceSize c /\
    flags = (14 - nonceSize c) + 8 * ((tagSize c - 2) / 2)
            + (if 0 <? len ad then 64 else 0) /\
    0 <= flags < 128 /\
    flags mod 8 = 14 - nonceSize c /\
    (flags / 8) mod 8 = (tagSize c - 2) / 2 /\
    Z.testbit flags 6 = (0 <? len ad) /\
    Z.testbit flags 7 = false.
Proof.
  intros Hwf Hn. pose proof Hwf as (_ & _ & _ & HN & _).
  destruct (flagsB0_value c ad Hwf) as (Hv & Hr & H0 & H3 & H6).
  exists (flagsB0 c ad),
    (be_encode (Z.to_nat (15 - nonceSize c)) (uint64 (len plaintext))).
  split; [now apply formatB0_Ctr1|].
  split; [unfold len; rewrite length_be_encode; lia|].
  repeat (split; [assumption|]).
  set (f := flagsB0 c ad) in *.
  destruct (Z.eq_dec f 0) as [->|Hf0]; [reflexivity|].
  apply Z.bits_above_log2; [lia|].
  apply Z.log2_lt_pow2; [lia|]. change (2 ^ 7) with 128. lia.
Qed.

Lemma formatB0_fields_witness :
  exists flags rest,
    formatB0 (demoCCM 13 4) (Ctr1 (demoCCM 13 4) demoNonce) [7; 7] [1; 2; 3]
    = flags :: demoNonce ++ rest /\ flags = 73.
Proof.
  destruct (formatB0_fields (demoCCM 13 4) demoNonce [7; 7] [1; 2; 3] demoCCM_wf)
    as (flags & rest & E & _ & Hv & _).
  - reflexivity.
  - exists flags, rest. split; [exact E | exact Hv].
Defined.

(** X19. Sealing what was opened gives the input back: when [Open] (empty
    [dst]) accepts an input and returns a plaintext, [Seal] on that
    plaintext with the same nonce and associated data and a [nil] dst
    returns exactly that input. *)
Theorem Seal_Open_roundtrip
  (c : ccm) (m : memory) (nonce plaintext ad : slice) (ciphertext : list byte) :
  wf c -> inBounds m nonce -> inBounds m plaintext -> inBounds m ad ->
  fst (Open c [] (load m nonce) ciphertext (load m ad))
  = (Some (load m plaintext), None) ->
  returned (SealAt c m nilSlice nonce plaintext ad) = SealBytes ciphertext.
Proof.
  intros Hwf Hno Hpt Had Hok. pose proof Hwf as (Hbs & _ & _ & _ & HT & _).
  rewrite SealAt_nil_Seal by assumption.
  set (nb := load m nonce) in *. set (P := load m plaintext) in *.
  set (A := load m ad) in *.
  destruct (Open_success_inv c [] nb ciphertext A P Hwf Hok)
    as (Hn & Ht & Hfit & Htag & Hout).
  cbn [app] in Hout.
  set (k := len ciphertext - tagSize c) in *.
  set (body := slice_to ciphertext k) in *.
  assert (Hbody : len body = k).
  { subst body. unfold len. rewrite length_slice_to; lia. }
  assert (Hplain : len P = k).
  { rewrite Hout. unfold len. rewrite length_ctrCrypt by assumption.
    fold (len body). exact Hbody. }
  rewrite Seal_nil_dst; try assumption; [|now rewrite Hplain].
  f_equal.
  assert (Hback : ctrCrypt c nb P = body)
    by (rewrite Hout; now apply ctrCrypt_involutive).
  rewrite Hback. unfold maskedMac.
  rewrite xor_list_comm. rewrite Hout at 1.
  fold (expectedTag c nb A body). rewrite <- Htag.
  subst body. unfold slice_to, slice_from. apply firstn_skipn.
Qed.

Lemma Seal_Open_roundtrip_witness :
  returned (SealAt (demoCCM 13 4) demoMemory nilSlice demoNonceAt
              {| ptr := 0; slen := 3; scap := 3 |} demoADAt)
  = SealBytes [90; 88; 84; 3; 2; 7; 7].
Proof.
  apply (Seal_Open_roundtrip (demoCCM 13 4) demoMemory demoNonceAt
           {| ptr := 0; slen := 3; scap := 3 |} demoADAt [90; 88; 84; 3; 2; 7; 7]
           demoCCM_wf).
  - split; vm_compute; lia.
  - split; vm_compute; lia.
  - split; vm_compute; lia.
  - by_evaluation.
Defined.

(** X20. Sealing in place.  When [dst] is [plaintext[:0]] with room for the
    result in the array of the plaintext, and the associated data is stored
    apart from it, [Seal] leaves the ciphertext where the plaintext was and
    returns it followed by T bytes that are the start of the masked MAC of
    the ciphertext: the plaintext is gone when [getTag] reads it. *)
Theorem Seal_sharing_plaintext_storage (c : ccm) (m : memory) (nonce plaintext ad : slice) :
  wf c -> wholeBlock (blockCipher c) ->
  inBounds m nonce -> inBounds m plaintext -> inBounds m ad ->
  Z.of_nat (slen nonce) = nonceSize c ->
  Z.of_nat (slen plaintext) <= maxPayload (nonceSize c) ->
  (slen plaintext + 16 <= scap plaintext)%nat ->
  anyOverlap (resultStorage (emptied plaintext) plaintext) ad = false ->
  exists r m',
    SealAt c m (emptied plaintext) nonce plaintext ad
    = (AtSlice r, m',
       snd (getTag c (Ctr1 c (load m nonce)) (load m ad)
              (ctrCrypt c (load m nonce) (load m plaintext)))) /\
    ptr r = ptr plaintext /\
    load m' plaintext = ctrCrypt c (load m nonce) (load m plaintext) /\
    load m' r
    = ctrCrypt c (load m nonce) (load m plaintext)
      ++ slice_to (maskedMac c (load m nonce) (load m ad)
                     (ctrCrypt c (load m nonce) (load m plaintext))) (tagSize c).
Proof.
  intros Hwf Hw Hno Hpt Had Hn Hmax Hroom Hoa.
  pose proof Hwf as (Hbs & _ & Hl & HN & HT & _).
  pose proof Hpt as [Hp1 Hp2].
  pose proof (payload_fits c _ Hwf Hmax) as Hu.
  rewrite SealAt_in_place by assumption.
  set (X := ctrCrypt c (load m nonce) (load m plaintext)).
  set (M := maskedMac c (load m nonce) (load m ad) X).
  assert (HX : length X = slen plaintext)
    by (subst X; rewrite length_ctrCrypt by assumption; now apply length_load).
  assert (HM : length M = 16%nat) by (subst M; now apply length_maskedMac).
  assert (HA : length (firstn (ptr plaintext) m) = ptr plaintext)
    by (rewrite length_firstn; lia).
  eexists. eexists. split; [reflexivity|]. cbn [ptr].
  split; [reflexivity|]. unfold load. cbn [ptr slen]. split.
  - rewrite <- app_assoc, loadAt_app_at by exact HA.
    rewrite <- HX. rewrite firstn_app, firstn_all, Nat.sub_diag. cbn [firstn].
    apply app_nil_r.
  - rewrite loadAt_app_at by exact HA.
    rewrite firstn_app_short by (rewrite length_app; lia).
    rewrite <- HX at 1. rewrite firstn_app_2. reflexivity.
Qed.

Lemma Seal_sharing_plaintext_storage_witness :
  exists r m',
    SealAt (demoCCM 13 4) demoMemory (emptied demoTextAt) demoNonceAt demoTextAt demoADAt
    = (AtSlice r, m',
       snd (getTag (demoCCM 13 4) (Ctr1 (demoCCM 13 4) (load demoMemory demoNonceAt))
              (load demoMemory demoADAt)
              (ctrCrypt (demoCCM 13 4) (load demoMemory demoNonceAt)
                 (load demoMemory demoTextAt)))) /\
    load m' demoTextAt
    = ctrCrypt (demoCCM 13 4) (load demoMemory demoNonceAt) (load demoMemory demoTextAt).
Proof.
  destruct (Seal_sharing_plaintext_storage (demoCCM 13 4) demoMemory demoNonceAt demoTextAt demoADAt
              demoCCM_wf demoBlock_wholeBlock)
    as (r & m' & E & _ & Hp & _).
  - split; vm_compute; lia.
  - split; vm_compute; lia.
  - split; vm_compute; lia.
  - reflexivity.
  - by_evaluation.
  - cbn. lia.
  - reflexivity.
  - exists r, m'. split; [exact E | exact Hp].
Defined.

(** X21. [getTag] overwrites the counter field.  [Seal] and [Open] hand it
    the counter block whose last byte is already 1; for a nonce of N bytes
    and a plaintext within [maxPayload(N)], the block B0 made of it is the
    flag byte, the nonce and the plaintext length big-endian over the last
    [15 - N] bytes, which read back as that length; it is the block made of
    Ctr0, and so is the MAC. *)
Theorem B0_counter_field_holds_length (c : ccm) (nonce ad plaintext : list byte) :
  wf c -> len nonce = nonceSize c -> len plaintext <= maxPayload (nonceSize c) ->
  formatB0 c (Ctr1 c nonce) ad plaintext
  = flagsB0 c ad :: nonce ++ be_encode (Z.to_nat (15 - nonceSize c)) (len plaintext) /\
  formatB0 c (Ctr1 c nonce) ad plaintext = formatB0 c (Ctr0 c nonce) ad plaintext /\
  be_decode (slice_from (formatB0 c (Ctr1 c nonce) ad plaintext) (1 + nonceSize c))
  = len plaintext /\
  getTag c (Ctr1 c nonce) ad plaintext = getTag c (Ctr0 c nonce) ad plaintext.
Proof.
  intros Hwf Hn Hmax. pose proof Hwf as (Hbs & Hblk & Hl & HN & HT & He).
  pose proof (maxPayload_bounds (nonceSize c) HN) as Hmp.
  pose proof (len_nonneg plaintext) as Hp.
  assert (Hu : uint64 (len plaintext) = len plaintext) by (apply uint64_small; lia).
  assert (HB : formatB0 c (Ctr1 c nonce) ad plaintext
               = flagsB0 c ad :: nonce
                 ++ be_encode (Z.to_nat (15 - nonceSize c)) (len plaintext)).
  { rewrite formatB0_Ctr1 by assumption. now rewrite Hu. }
  split; [exact HB|]. split; [|split].
  - now rewrite formatB0_Ctr1, formatB0_Ctr0.
  - rewrite HB.
    change (flagsB0 c ad :: nonce ++ ?t) with ((flagsB0 c ad :: nonce) ++ t).
    replace (1 + nonceSize c) with (len (flagsB0 c ad :: nonce))
      by (unfold len in *; simpl length; lia).
    rewrite slice_from_app. apply be_decode_encode.
    replace (8 * Z.of_nat (Z.to_nat (15 - nonceSize c))) with (8 * (15 - nonceSize c))
      by lia.
    unfold maxPayload in Hmax. lia.
  - now apply getTag_Ctr1_Ctr0.
Qed.

Lemma B0_counter_field_holds_length_witness :
  formatB0 (demoCCM 13 4) (Ctr1 (demoCCM 13 4) demoNonce) [7; 7] [1; 2; 3]
  = [73; 1; 2; 3; 4; 5; 6; 7; 8; 9; 10; 11; 12; 13; 0; 3] /\
  be_decode (slice_from
               (formatB0 (demoCCM 13 4) (Ctr1 (demoCCM 13 4) demoNonce) [7; 7] [1; 2; 3])
               (1 + nonceSize (demoCCM 13 4))) = 3.
Proof.
  destruct (B0_counter_field_holds_length (demoCCM 13 4) demoNonce [7; 7] [1; 2; 3])
    as (HB & _ & HQ & _).
  - exact demoCCM_wf.
  - reflexivity.
  - by_evaluation.
  - split; [exact HB | exact HQ].
Defined.
